(** * Jacobi solver for the 2D Poisson equation (openmp/poisson_openmp.c)

    A shallow embedding of [jacobi_step], [jacobi_poisson] and the driver
    [main], and the properties of the solver that follow from the code.

    Conventions of the embedding:
    - a C [double] is a [float] (IEEE 754 binary64, round to nearest), so the
      arithmetic of the program is computed and not idealised;
    - a C [int] is a [Z]; the development covers the runs in which no signed
      overflow occurs (it is undefined behaviour in C);
    - a buffer [double *] is a [list float] addressed by the flat offset
      [i*ld+j] with [ld = M+2]; a read outside the list is undefined in C and
      is given the value [0] here, a write outside the list is dropped; the
      lemma [interior_offsets_in_range] shows that a buffer of
      [(N+2)*(M+2)] entries is never accessed outside its bounds;
    - the OpenMP regions are read in their serial elision: the loops run in
      source order on one thread, and the reduction adds its terms in
      row-major order. *)

From Stdlib Require Import ZArith Lia Floats String Ascii.
From stdpp Require Import base list.

#[local] Set Warnings "-inexact-float".

#[local] Open Scope Z_scope.

(** ** Buffers *)

Abbreviation buffer := (list float).

(** [a[o]] *)
Definition rd (a : buffer) (o : Z) : float :=
  default 0%float (a !! Z.to_nat o).

(** [a[o] = v] *)
Definition wr (a : buffer) (o : Z) (v : float) : buffer :=
  <[Z.to_nat o := v]> a.

(** [calloc(n, sizeof(double))]: [n] entries, all bits zero, that is [+0.0].
    The allocation is assumed to succeed. *)
Definition calloc (n : Z) : buffer := replicate (Z.to_nat n) 0%float.

(** The three buffers the solver works on. [jacobi_step] receives them as
    three pointers; at its only call site they are distinct allocations. *)
Record mem := Mem { vx : buffer; vb : buffer; vt : buffer }.

Definition set_vx (m : mem) (a : buffer) : mem := Mem a (vb m) (vt m).
Definition set_vt (m : mem) (a : buffer) : mem := Mem (vx m) (vb m) a.

(** ** The loop nest over the interior

    [for (i=1; i<=N; i++) for (j=1; j<=M; j++) body], the shape of the sweep,
    of the reduction, of the copy and of the initialisation of [b]. *)
Definition for_interior {S : Type} (N M : Z) (body : Z → Z → S → S) (s : S) : S :=
  foldl (λ s i, foldl (λ s j, body i j s) s (seqZ 1 M)) s (seqZ 1 N).

(** ** jacobi_step *)

Definition stencil (ld : Z) (x b : buffer) (i j : Z) : float :=
  ((rd b (i*ld+j) + rd x ((i+1)*ld+j) + rd x ((i-1)*ld+j)
    + rd x (i*ld+(j+1)) + rd x (i*ld+(j-1))) / 4)%float.

Definition jacobi_step (N M : Z) (m : mem) : mem :=
  let ld := M + 2 in
  for_interior N M
    (λ i j m, set_vt m (wr (vt m) (i*ld+j) (stencil ld (vx m) (vb m) i j))) m.

(** ** jacobi_poisson *)

Definition maxit : Z := 70000.
(** [1e-6], that is the double nearest to it. *)
Definition tol : float := 0x1.0c6f7a0b5ed8dp-20%float.

(** The variables of [jacobi_poisson] that outlive one cycle of its loop,
    together with what it has printed: one record [(k, sqrt(s))] per cycle. *)
Record state := State {
  st_mem : mem;
  st_k : Z;
  st_conv : bool;
  st_s : float;
  st_out : list (Z * float)
}.

(** The reduction of lines 61-70. *)
Definition sum_sq (N M : Z) (x t : buffer) : float :=
  let ld := M + 2 in
  for_interior N M
    (λ i j s, (s + (rd x (i*ld+j) - rd t (i*ld+j)) * (rd x (i*ld+j) - rd t (i*ld+j)))%float)
    0%float.

(** The copy of lines 81-86. *)
Definition copy_back (N M : Z) (m : mem) : mem :=
  let ld := M + 2 in
  for_interior N M (λ i j m, set_vx m (wr (vx m) (i*ld+j) (rd (vt m) (i*ld+j)))) m.

(** One pass through the body of the [while] loop (lines 57-87). *)
Definition cycle (N M : Z) (st : state) : state :=
  let m1 := jacobi_step N M (st_mem st) in
  let s := sum_sq N M (vx m1) (vt m1) in
  let conv := (sqrt s <? tol)%float in
  let out := st_out st ++ [(st_k st, sqrt s)] in
  let k := st_k st + 1 in
  let m2 := copy_back N M m1 in
  State m2 k conv s out.

(** [!conv && k<maxit] *)
Definition guard (cap : Z) (st : state) : bool :=
  negb (st_conv st) && (st_k st <? cap).

(** The [while] loop, with the iteration cap [cap] of the source as a
    parameter; [None] when [fuel] passes through the body do not reach the
    exit of the loop. *)
Fixpoint while_loop (fuel : nat) (N M cap : Z) (st : state) : option state :=
  if guard cap st then
    match fuel with
    | O => None
    | S fuel' => while_loop fuel' N M cap (cycle N M st)
    end
  else Some st.

(** The state on entry to the loop. [s] is not initialised in the source; it
    is assigned in the first cycle before it is read. *)
Definition init_state (N M : Z) (x b : buffer) : state :=
  State (Mem x b (calloc ((N+2)*(M+2)))) 0 false 0%float [].

Definition solve (cap N M : Z) (x b : buffer) : option state :=
  while_loop (Z.to_nat cap) N M cap (init_state N M x b).

(** The final values of the locals of [jacobi_poisson(N,M,x,b)]. *)
Definition jacobi_poisson_run (N M : Z) (x b : buffer) : option state :=
  solve maxit N M x b.

(** What a call [jacobi_poisson(N,M,x,b)] leaves to its caller. The function
    is [void], [t] is freed and [k], [conv], [s] are locals: the caller finds
    the two buffers it passed, as the call left them. *)
Definition jacobi_poisson (N M : Z) (x b : buffer) : option (buffer * buffer) :=
  (λ st, (vx (st_mem st), vb (st_mem st))) <$> jacobi_poisson_run N M x b.

(** What the call has written on the standard output. *)
Definition jacobi_poisson_stdout (N M : Z) (x b : buffer) : option (list (Z * float)) :=
  st_out <$> jacobi_poisson_run N M x b.

(** The terminal states of the controller, read off the loop guard. *)
Inductive control := Running | Converged | Exhausted.

Definition control_of (cap : Z) (st : state) : control :=
  if st_conv st then Converged
  else if st_k st <? cap then Running else Exhausted.

(** ** The driver *)

(** [atoi] of the C library, for the values an [int] can hold: white space is
    skipped, an optional sign is read, then the decimal digits up to the first
    character that is not one; no digit gives [0]. *)
Definition is_space (c : ascii) : bool :=
  let n := Z.of_nat (nat_of_ascii c) in (n =? 32) || ((9 <=? n) && (n <=? 13)).

Definition digit_of (c : ascii) : option Z :=
  let n := Z.of_nat (nat_of_ascii c) in
  if (48 <=? n) && (n <=? 57) then Some (n - 48) else None.

Fixpoint skip_space (s : string) : string :=
  match s with
  | String c r => if is_space c then skip_space r else s
  | EmptyString => s
  end.

Fixpoint digits (acc : Z) (s : string) : Z :=
  match s with
  | String c r =>
      match digit_of c with
      | Some d => digits (10 * acc + d) r
      | None => acc
      end
  | EmptyString => acc
  end.

Definition atoi (s : string) : Z :=
  match skip_space s with
  | String "-" r => - digits 0 r
  | String "+" r => digits 0 r
  | r => digits 0 r
  end.

(** [argv[n]] *)
Definition arg (argv : list string) (n : nat) : string := default EmptyString (argv !! n).

(** The value of [N] after lines 99-101. *)
Definition arg_N (argv : list string) : Z :=
  if 1 <? Z.of_nat (length argv) then
    let n := atoi (arg argv 1) in if n <? 0 then 50 else n
  else 50.

(** The value of [M] after lines 102-104. *)
Definition arg_M (argv : list string) : Z :=
  if 2 <? Z.of_nat (length argv) then
    let m := atoi (arg argv 2) in if m <? 0 then 1 else m
  else 50.

(** The range of a C [int]. *)
Definition INT_MIN : Z := -2147483648.
Definition INT_MAX : Z := 2147483647.

Definition fits_int (z : Z) : bool := (INT_MIN <=? z) && (z <=? INT_MAX).

(** What the driver finds around it: whether each of its three allocations
    ([x] and [b] in [main], [t] in [jacobi_poisson]) gives a buffer, whether
    each of its two [fopen] calls gives a stream, the two readings of the
    clock and the size of the thread team. *)
Record env := Env {
  calloc_x : bool;
  calloc_b : bool;
  calloc_t : bool;
  fopen_output : bool;
  fopen_matrix : bool;
  wtime_tic : float;
  wtime_toc : float;
  num_threads : Z
}.

(** The figures written to [output.txt]. *)
Record report := Report {
  rep_seconds : float;
  rep_N : Z;
  rep_M : Z;
  rep_threads : Z
}.

(** How a run of the driver ends: it returns [code] from [main], having
    printed [printed], written the report and, when the file could be opened,
    the rows of the matrix; or it leaves the behaviour C defines: [atoi] of a
    number no [int] holds, overflow of the [int] product [(N+2)*(M+2)], a
    load or store through a null buffer, [fprintf] on a null stream. In
    practice the process is then killed by a signal. *)
Inductive outcome :=
  | Exit (code : Z) (printed : list (Z * float)) (rep : report)
         (matrix : option (list (list float)))
  | Undefined.

Definition h : float := 0x1.47ae147ae147bp-7%float.  (* 0.01 *)
Definition f : float := 1.5%float.

(** Lines 113-118. *)
Definition init_b (N M : Z) (b : buffer) : buffer :=
  let ld := M + 2 in
  for_interior N M (λ i j b, wr b (i*ld+j) (h*h*f)%float) b.

(** Lines 153-158. *)
Definition matrix_rows (N M : Z) (x : buffer) : list (list float) :=
  let ld := M + 2 in
  (λ i, (λ j, rd x (i*ld+j)) <$> seqZ 1 M) <$> seqZ 1 N.

(** The arguments given are numbers [atoi] can return. *)
Definition args_fit (argv : list string) : bool :=
  (if 1 <? Z.of_nat (length argv) then fits_int (atoi (arg argv 1)) else true)
  && (if 2 <? Z.of_nat (length argv) then fits_int (atoi (arg argv 2)) else true).

(** The run is defined up to the return of [jacobi_poisson]: the arguments
    fit, the size [(N+2)*(M+2)] of the buffers, computed in [int] at lines
    50, 108 and 109, does not overflow, and no null buffer is accessed. A
    buffer is accessed only by the loop nests, so a failed allocation goes
    unnoticed when the interior is empty; otherwise line 116 stores into [b]
    and line 24 loads from [x] and stores into [t]. *)
Definition reaches_output (argv : list string) (e : env) : bool :=
  let N := arg_N argv in
  let M := arg_M argv in
  args_fit argv
  && ((N+2)*(M+2) <=? INT_MAX)
  && ((N <? 1) || (M <? 1) || (calloc_x e && calloc_b e && calloc_t e)).

Definition main (argv : list string) (e : env) : option outcome :=
  if reaches_output argv e then
    let N := arg_N argv in
    let M := arg_M argv in
    let x := calloc ((N+2)*(M+2)) in
    let b := init_b N M (calloc ((N+2)*(M+2))) in
    st ← jacobi_poisson_run N M x b;
    if fopen_output e then
      let rep := Report (wtime_toc e - wtime_tic e)%float N M (num_threads e) in
      if fopen_matrix e then
        Some (Exit 0 (st_out st) rep (Some (matrix_rows N M (vx (st_mem st)))))
      else Some (Exit 1 (st_out st) rep None)
    else Some Undefined
  else Some Undefined.

(** ** Auxiliary definitions for the proofs *)

(** The interior points in the order the loop nest visits them. *)
Definition interior (N M : Z) : list (Z * Z) :=
  i ← seqZ 1 N; (λ j, (i, j)) <$> seqZ 1 M.

(** A loop nest that stores [g i j] at offset [i*ld+j] of one buffer. *)
Definition fill (N M : Z) (g : Z → Z → float) (a : buffer) : buffer :=
  for_interior N M (λ i j a, wr a (i*(M+2)+j) (g i j)) a.

(** Offset [o] is the offset of an interior point of the [N] by [M] grid. *)
Definition interior_offset (N M : Z) (o : nat) : Prop :=
  ∃ i j, 1 ≤ i ≤ N ∧ 1 ≤ j ≤ M ∧ o = Z.to_nat (i*(M+2)+j).

(** Point [(i,j)] of the stored [(N+2)] by [(M+2)] field lies on its halo. *)
Definition on_boundary (N M i j : Z) : Prop :=
  0 ≤ i ≤ N+1 ∧ 0 ≤ j ≤ M+1 ∧ (i = 0 ∨ i = N+1 ∨ j = 0 ∨ j = M+1).

(** The buffer has the [(N+2)*(M+2)] entries the source assumes. *)
Definition sized (N M : Z) (a : buffer) : Prop :=
  Z.of_nat (length a) = (N+2)*(M+2).

(** The sum the convergence test is specified to compute: the squares
    [(x[i,j]-t[i,j])²] of the interior points, added up from [0] in the order
    of the loop nest. *)
Definition squared_differences (N M : Z) (x t : buffer) : list float :=
  (λ p, let d := (rd x (p.1*(M+2)+p.2) - rd t (p.1*(M+2)+p.2))%float in (d * d)%float)
    <$> interior N M.

Definition float_sum (l : list float) : float := foldl PrimFloat.add 0%float l.

(** An argument of the form the driver is documented to take: a positive
    integer written in decimal digits. *)
Definition positive_decimal (s : string) : bool :=
  match s with
  | EmptyString => false
  | _ => forallb (λ c, bool_decide (is_Some (digit_of c))) (list_ascii_of_string s)
         && (0 <? digits 0 s)
  end.

(** ** The solver with the bounds of its buffers checked

    In C an access outside a buffer is undefined, and so is an offset that
    overflows the [int] it is computed in; here both are [None]. A null
    pointer is a buffer without entries. The functions below are the same
    loops as above with every access checked. *)

Definition rd_chk (a : buffer) (o : Z) : option float :=
  if (0 <=? o) && (o <=? INT_MAX) then a !! Z.to_nat o else None.

Definition wr_chk (a : buffer) (o : Z) (v : float) : option buffer :=
  if (0 <=? o) && (o <=? INT_MAX) && (o <? Z.of_nat (length a))
  then Some (wr a o v) else None.

Definition stencil_chk (ld : Z) (x b : buffer) (i j : Z) : option float :=
  c ← rd_chk b (i*ld+j);
  s ← rd_chk x ((i+1)*ld+j);
  n ← rd_chk x ((i-1)*ld+j);
  e ← rd_chk x (i*ld+(j+1));
  w ← rd_chk x (i*ld+(j-1));
  Some ((c + s + n + e + w) / 4)%float.

Definition jacobi_step_chk (N M : Z) (m : mem) : option mem :=
  let ld := M + 2 in
  for_interior N M
    (λ i j om,
       m ← om;
       v ← stencil_chk ld (vx m) (vb m) i j;
       t ← wr_chk (vt m) (i*ld+j) v;
       Some (set_vt m t))
    (Some m).

Definition sum_sq_chk (N M : Z) (x t : buffer) : option float :=
  let ld := M + 2 in
  for_interior N M
    (λ i j os,
       s ← os;
       xv ← rd_chk x (i*ld+j);
       tv ← rd_chk t (i*ld+j);
       Some (s + (xv - tv) * (xv - tv))%float)
    (Some 0%float).

Definition copy_back_chk (N M : Z) (m : mem) : option mem :=
  let ld := M + 2 in
  for_interior N M
    (λ i j om,
       m ← om;
       tv ← rd_chk (vt m) (i*ld+j);
       x ← wr_chk (vx m) (i*ld+j) tv;
       Some (set_vx m x))
    (Some m).

Definition cycle_chk (N M : Z) (st : state) : option state :=
  m1 ← jacobi_step_chk N M (st_mem st);
  s ← sum_sq_chk N M (vx m1) (vt m1);
  m2 ← copy_back_chk N M m1;
  Some (State m2 (st_k st + 1) (sqrt s <? tol)%float s
          (st_out st ++ [(st_k st, sqrt s)])).

(** ** The loop nests in another order

    The bodies of the sweep and of the copy, and a loop that runs a body over
    the points of a list, one after the other: the order in which a schedule
    of the [parallel for] may take them. *)

Definition sweep_body (M : Z) (i j : Z) (m : mem) : mem :=
  let ld := M + 2 in
  set_vt m (wr (vt m) (i*ld+j) (stencil ld (vx m) (vb m) i j)).

Definition copy_body (M : Z) (i j : Z) (m : mem) : mem :=
  let ld := M + 2 in
  set_vx m (wr (vx m) (i*ld+j) (rd (vt m) (i*ld+j))).

Definition for_points {S : Type} (l : list (Z * Z)) (body : Z → Z → S → S) (s : S) : S :=
  foldl (λ s p, body p.1 p.2 s) s l.


(** ** The reduction under any schedule

    [#pragma omp for reduction(+:s)] gives every thread a private copy of [s]
    that starts at [0]; a thread adds to its copy the terms of the
    iterations it runs, in the order it runs them; at the end the original
    [s] and the private copies are combined with [+] in an order the
    implementation chooses. *)

Definition partial_sum {P : Type} (g : P → float) (chunk : list P) : float :=
  foldl (λ s p, (s + g p)%float) 0%float chunk.

(** [reduced g s0 o chunks v]: [v] combines the private copies of the threads
    that ran the lists of iterations [chunks], and the original value [s0]
    when [o] is set; the original value enters once. *)
Inductive reduced {P : Type} (g : P → float) (s0 : float) :
    bool → list (list P) → float → Prop :=
  | reduced_original : reduced g s0 true [] s0
  | reduced_private chunk : reduced g s0 false [chunk] (partial_sum g chunk)
  | reduced_combine o1 o2 cs1 cs2 cs v1 v2 :
      cs ≡ₚ cs1 ++ cs2 → o1 && o2 = false →
      reduced g s0 o1 cs1 v1 → reduced g s0 o2 cs2 v2 →
      reduced g s0 (o1 || o2) cs (v1 + v2)%float.

(** The term of line 68 at point [p]. *)
Definition sq_diff (M : Z) (x t : buffer) (p : Z * Z) : float :=
  ((rd x (p.1*(M+2)+p.2) - rd t (p.1*(M+2)+p.2))
   * (rd x (p.1*(M+2)+p.2) - rd t (p.1*(M+2)+p.2)))%float.

(** [s] after lines 61-70, for some distribution of the interior points over
    the threads; [s] is [0.0] on entry. *)
Definition sum_sq_omp (N M : Z) (x t : buffer) (s : float) : Prop :=
  ∃ chunks, concat chunks ≡ₚ interior N M ∧ reduced (sq_diff M x t) 0%float true chunks s.

(** One pass through the body of the [while] loop under some schedule. The
    sweep and the copy store at distinct offsets values that do not depend on
    one another, so that their result is that of the loop nests in source
    order (see [for_points]); the reduction is any one of [sum_sq_omp]. *)
Definition cycle_omp (N M : Z) (st st' : state) : Prop :=
  let m1 := jacobi_step N M (st_mem st) in
  ∃ s, sum_sq_omp N M (vx m1) (vt m1) s
       ∧ st' = State (copy_back N M m1) (st_k st + 1) (sqrt s <? tol)%float s
                 (st_out st ++ [(st_k st, sqrt s)]).

(** [v] is a floating-point sum of the values of [l]: every value of [l]
    enters once, the additions are made in some order and start from
    accumulators that hold [0]. *)
Inductive float_sum_of : list float → float → Prop :=
  | float_sum_start : float_sum_of [] 0%float
  | float_sum_term v : float_sum_of [v] v
  | float_sum_add l l1 l2 v1 v2 :
      l ≡ₚ l1 ++ l2 → float_sum_of l1 v1 → float_sum_of l2 v2 →
      float_sum_of l (v1 + v2)%float.

(** ** Evaluations *)

Example h_is_0_01 : h = 0.01%float.
Proof. reflexivity. Qed.

Example tol_is_1e_6 : tol = 1e-6%float.
Proof. reflexivity. Qed.

Example step_1x1 :
  vt (jacobi_step 1 1 (Mem (calloc 9) (wr (calloc 9) 4 2%float) (calloc 9)))
  = wr (calloc 9) 4 0.5%float.
Proof. vm_compute. reflexivity. Qed.

Example poisson_1x1 :
  jacobi_poisson_run 1 1 (calloc 9) (wr (calloc 9) 4 0x1p-23%float)
  = Some (State (Mem (wr (calloc 9) 4 0x1p-25%float) (wr (calloc 9) 4 0x1p-23%float)
                     (wr (calloc 9) 4 0x1p-25%float))
                1 true 0x1p-50%float [(0, 0x1p-25%float)]).
Proof. vm_compute. reflexivity. Qed.

(** With the cap set to 1 the 2 by 2 problem of the driver ends Exhausted
    after exactly one cycle. *)
Example cap_1 :
  (λ st, (st_k st, control_of 1 st))
    <$> solve 1 2 2 (calloc 16) (init_b 2 2 (calloc 16))
  = Some (1, Exhausted).
Proof. vm_compute. reflexivity. Qed.

Example atoi_examples :
  atoi "42" = 42 ∧ atoi "  -7x" = -7 ∧ atoi "abc" = 0 ∧ atoi "" = 0 ∧ atoi "+3" = 3.
Proof. repeat split. Qed.

Example main_2x2 :
  ∃ out rows, main ["poisson"; "2"; "2"]%string (Env true true true true true 0 1 4)
    = Some (Exit 0 out (Report 1 2 2 4) (Some rows)) ∧ length out = 8%nat.
Proof. eexists _, _. vm_compute. split; reflexivity. Qed.

(** ** The loop nest *)

Section loops.
Context {S : Type}.

Lemma elem_of_interior N M i j :
  (i, j) ∈ interior N M ↔ 1 ≤ i ≤ N ∧ 1 ≤ j ≤ M.
Proof.
  unfold interior. rewrite list_elem_of_bind. split.
  - intros (i' & Hj & Hi). apply list_elem_of_fmap in Hj as (j' & Heq & Hj).
    inversion Heq; subst. apply elem_of_seqZ in Hi, Hj. lia.
  - intros [Hi Hj]. exists i. split.
    + apply list_elem_of_fmap. exists j. split; [done|]. apply elem_of_seqZ. lia.
    + apply elem_of_seqZ. lia.
Qed.

Lemma for_interior_flat N M (body : Z → Z → S → S) s :
  for_interior N M body s = foldl (λ s p, body p.1 p.2 s) s (interior N M).
Proof.
  unfold for_interior, interior. generalize (seqZ 1 N) as li. intros li.
  revert s. induction li as [|i li IH]; intros s; csimpl; [done|].
  rewrite foldl_app, foldl_fmap. cbn [fst snd]. apply IH.
Qed.

Lemma for_interior_empty N M (body : Z → Z → S → S) s :
  N ≤ 0 ∨ M ≤ 0 → for_interior N M body s = s.
Proof.
  intros [HN|HM]; unfold for_interior.
  - rewrite (seqZ_nil 1 N) by lia. reflexivity.
  - rewrite (seqZ_nil 1 M) by lia. cbn [foldl].
    induction (seqZ 1 N) as [|i l IH]; [reflexivity | exact IH].
Qed.
End loops.

(** ** Stores into a buffer *)

Lemma length_wr a o v : length (wr a o v) = length a.
Proof. apply length_insert. Qed.

Lemma rd_calloc n o : rd (calloc n) o = 0%float.
Proof.
  unfold rd, calloc.
  destruct (replicate (Z.to_nat n) 0%float !! Z.to_nat o) as [v|] eqn:Hv; [|done].
  by apply lookup_replicate in Hv as [-> _].
Qed.

Section stores.
Context {P : Type} (o : P → Z) (g : P → float).

Lemma length_foldl_wr l a : length (foldl (λ a p, wr a (o p) (g p)) a l) = length a.
Proof.
  revert a. induction l as [|p l IH]; intros a; cbn; [done|].
  rewrite IH. apply length_wr.
Qed.

Lemma foldl_wr_other l a n :
  (∀ p, p ∈ l → Z.to_nat (o p) ≠ n) → foldl (λ a p, wr a (o p) (g p)) a l !! n = a !! n.
Proof.
  revert a. induction l as [|p l IH]; intros a Hn; cbn; [done|].
  rewrite IH by (intros q Hq; apply Hn; by right).
  apply list_lookup_insert_ne, Hn. by left.
Qed.

Lemma foldl_wr_hit l a p0 :
  p0 ∈ l →
  (∀ p, p ∈ l → Z.to_nat (o p) = Z.to_nat (o p0) → g p = g p0) →
  (Z.to_nat (o p0) < length a)%nat →
  foldl (λ a p, wr a (o p) (g p)) a l !! Z.to_nat (o p0) = Some (g p0).
Proof.
  intros Hin Hinj Hlen. induction l as [|p l IH] using rev_ind.
  - by apply elem_of_nil in Hin.
  - rewrite foldl_snoc. unfold wr at 1.
    destruct (decide (Z.to_nat (o p) = Z.to_nat (o p0))) as [Heq|Hne].
    + rewrite Heq, list_lookup_insert_eq by (by rewrite length_foldl_wr).
      f_equal. apply Hinj; [|done]. apply elem_of_app. right. by left.
    + rewrite list_lookup_insert_ne by done. apply IH.
      * apply elem_of_app in Hin as [Hin|Hin]; [done|].
        apply list_elem_of_singleton in Hin. by subst.
      * intros q Hq. apply Hinj, elem_of_app. by left.
Qed.
End stores.

(** Distinct interior points have distinct offsets, and all of them fall
    inside a buffer of [(N+2)*(M+2)] entries, with their four neighbours. *)
Lemma offset_inj M i j i' j' :
  1 ≤ i → 1 ≤ j ≤ M → 1 ≤ i' → 1 ≤ j' ≤ M →
  Z.to_nat (i*(M+2)+j) = Z.to_nat (i'*(M+2)+j') → i = i' ∧ j = j'.
Proof.
  intros Hi Hj Hi' Hj' Heq.
  assert (i*(M+2)+j = i'*(M+2)+j') as Heq' by nia.
  assert (i = i') by nia. subst. lia.
Qed.

Lemma interior_offsets_in_range N M i j :
  1 ≤ i ≤ N → 1 ≤ j ≤ M →
  0 ≤ (i-1)*(M+2)+j ∧ 0 ≤ i*(M+2)+(j-1) ∧
  i*(M+2)+j < (N+2)*(M+2) ∧ i*(M+2)+(j+1) < (N+2)*(M+2) ∧
  (i+1)*(M+2)+j < (N+2)*(M+2).
Proof. intros Hi Hj. nia. Qed.

Lemma boundary_not_interior N M i j :
  on_boundary N M i j → ¬ interior_offset N M (Z.to_nat (i*(M+2)+j)).
Proof.
  intros (Hi & Hj & Hb) (i' & j' & Hi' & Hj' & Heq).
  assert (i*(M+2)+j = i'*(M+2)+j') as Heq' by nia.
  assert (i = i') by nia. subst. lia.
Qed.

(** ** What [fill] leaves in the buffer *)

Lemma fill_flat N M g a :
  fill N M g a = foldl (λ a p, wr a (p.1*(M+2)+p.2) (g p.1 p.2)) a (interior N M).
Proof. unfold fill. by rewrite for_interior_flat. Qed.

Lemma length_fill N M g a : length (fill N M g a) = length a.
Proof.
  rewrite fill_flat.
  apply (length_foldl_wr (λ p, p.1*(M+2)+p.2) (λ p, g p.1 p.2)).
Qed.

Lemma fill_other N M g a n :
  ¬ interior_offset N M n → fill N M g a !! n = a !! n.
Proof.
  intros Hn. rewrite fill_flat.
  apply (foldl_wr_other (λ p, p.1*(M+2)+p.2) (λ p, g p.1 p.2)).
  intros [i j] Hin Heq. apply elem_of_interior in Hin as [Hi Hj].
  apply Hn. by exists i, j.
Qed.

Lemma fill_interior_lt N M g a i j :
  (Z.to_nat (i*(M+2)+j) < length a)%nat → 1 ≤ i ≤ N → 1 ≤ j ≤ M →
  fill N M g a !! Z.to_nat (i*(M+2)+j) = Some (g i j).
Proof.
  intros Hlen Hi Hj. rewrite fill_flat.
  apply (foldl_wr_hit (λ p, p.1*(M+2)+p.2) (λ p, g p.1 p.2) _ _ (i, j)).
  - by apply elem_of_interior.
  - intros [i' j'] Hin Heq. cbn [fst snd] in *.
    apply elem_of_interior in Hin as [Hi' Hj'].
    apply offset_inj in Heq as [-> ->]; [done|lia..].
  - exact Hlen.
Qed.

Lemma fill_interior N M g a i j :
  (N+2)*(M+2) ≤ Z.of_nat (length a) → 1 ≤ i ≤ N → 1 ≤ j ≤ M →
  fill N M g a !! Z.to_nat (i*(M+2)+j) = Some (g i j).
Proof.
  intros Hlen Hi Hj. apply fill_interior_lt; [|done..].
  pose proof (interior_offsets_in_range N M i j Hi Hj). lia.
Qed.

Lemma rd_fill_interior N M g a i j :
  (N+2)*(M+2) ≤ Z.of_nat (length a) → 1 ≤ i ≤ N → 1 ≤ j ≤ M →
  rd (fill N M g a) (i*(M+2)+j) = g i j.
Proof. intros. unfold rd. by rewrite fill_interior. Qed.

Lemma rd_fill_other N M g a o :
  ¬ interior_offset N M (Z.to_nat o) → rd (fill N M g a) o = rd a o.
Proof. intros. unfold rd. by rewrite fill_other. Qed.

(** ** The three loop nests of the solver as [fill]s

    Each nest stores into one buffer values read from the others, so the
    buffers it reads are the ones it was entered with. *)

Lemma jacobi_step_fill N M m :
  jacobi_step N M m = set_vt m (fill N M (stencil (M+2) (vx m) (vb m)) (vt m)).
Proof.
  unfold jacobi_step. rewrite for_interior_flat, fill_flat.
  generalize (interior N M) as l. intros l. revert m.
  induction l as [|p l IH]; intros [x b t]; cbn; [done|].
  rewrite IH. reflexivity.
Qed.

Lemma copy_back_fill N M m :
  copy_back N M m = set_vx m (fill N M (λ i j, rd (vt m) (i*(M+2)+j)) (vx m)).
Proof.
  unfold copy_back. rewrite for_interior_flat, fill_flat.
  generalize (interior N M) as l. intros l. revert m.
  induction l as [|p l IH]; intros [x b t]; cbn; [done|].
  rewrite IH. reflexivity.
Qed.

Lemma init_b_fill N M b : init_b N M b = fill N M (λ _ _, (h*h*f)%float) b.
Proof. reflexivity. Qed.

(** The right-hand side the driver builds: [h*h*f] on the interior, the zero
    of [calloc] elsewhere. *)
Lemma init_b_entries N M i j :
  0 ≤ N → 0 ≤ M →
  (1 ≤ i ≤ N → 1 ≤ j ≤ M →
   rd (init_b N M (calloc ((N+2)*(M+2)))) (i*(M+2)+j) = (h*h*f)%float)
  ∧ (on_boundary N M i j →
     rd (init_b N M (calloc ((N+2)*(M+2)))) (i*(M+2)+j) = 0%float).
Proof.
  intros HN HM. rewrite init_b_fill. split.
  - intros Hi Hj. apply rd_fill_interior; [|done..].
    unfold calloc. rewrite length_replicate. lia.
  - intros Hb. rewrite rd_fill_other by (by apply boundary_not_interior).
    apply rd_calloc.
Qed.

(** ** Adding the zero of the halo *)

Lemma add_zero_r (v : float) : v ≠ neg_zero → (v + 0)%float = v.
Proof.
  intros Hv. apply Prim2SF_inj. rewrite add_spec.
  change (Prim2SF 0) with (S754_zero false).
  destruct (Prim2SF v) as [[|]| | |] eqn:Hsf; try reflexivity.
  destruct Hv. apply Prim2SF_inj. rewrite Hsf. reflexivity.
Qed.

Lemma neg_zero_cases (v : float) : v = neg_zero ∨ v ≠ neg_zero.
Proof.
  destruct (Prim2SF v) as [[|]| | |] eqn:Hsf;
    try (right; intros ->; vm_compute in Hsf; discriminate).
  left. apply Prim2SF_inj. rewrite Hsf. reflexivity.
Qed.

Lemma stencil_zero_halo (v : float) :
  v ≠ neg_zero → ((v + 0 + 0 + 0 + 0) / 4)%float = (v / 4)%float.
Proof. intros Hv. rewrite !(add_zero_r v) by exact Hv. reflexivity. Qed.

(** ** The sweep *)

(** C1. For every interior point [(i,j)] of an [N] by [M] grid, one call of
    [jacobi_step] leaves in [t[i,j]] the value
    [(b[i,j] + x[i+1,j] + x[i-1,j] + x[i,j+1] + x[i,j-1]) / 4] of the buffers
    it was called with. In particular for [N = M = 1], [b[1,1] = v] and [x]
    zero everywhere, [t[1,1]] is [v/4]: the very same double, except that for
    [v = -0.0] the sum is [+0.0], which compares equal to [v/4 = -0.0]. *)
Theorem jacobi_step_stencil (N M : Z) (m : mem) :
  sized N M (vt m) →
  (∀ i j, 1 ≤ i ≤ N → 1 ≤ j ≤ M →
     rd (vt (jacobi_step N M m)) (i*(M+2)+j)
     = ((rd (vb m) (i*(M+2)+j) + rd (vx m) ((i+1)*(M+2)+j) + rd (vx m) ((i-1)*(M+2)+j)
         + rd (vx m) (i*(M+2)+(j+1)) + rd (vx m) (i*(M+2)+(j-1))) / 4)%float)
  ∧ (N = 1 → M = 1 → (∀ o, rd (vx m) o = 0%float) →
     ∀ v, rd (vb m) 4 = v →
       let r := rd (vt (jacobi_step N M m)) 4 in
       r = (v / 4)%float
       ∨ (v = neg_zero ∧ r = 0%float ∧ (r =? v / 4)%float = true)).
Proof.
  intros Hsz.
  assert (∀ i j, 1 ≤ i ≤ N → 1 ≤ j ≤ M →
    rd (vt (jacobi_step N M m)) (i*(M+2)+j) = stencil (M+2) (vx m) (vb m) i j) as Hst.
  { intros i j Hi Hj. rewrite jacobi_step_fill. cbn [vt set_vt].
    apply rd_fill_interior; [|done..]. unfold sized in Hsz. lia. }
  split; [exact Hst|].
  intros -> -> Hx v Hv r.
  assert (r = ((v + 0 + 0 + 0 + 0) / 4)%float) as ->.
  { subst r. change 4 with (1*(1+2)+1). rewrite (Hst 1 1) by lia.
    unfold stencil. rewrite !Hx. change (1*(1+2)+1) with 4. by rewrite Hv. }
  destruct (neg_zero_cases v) as [->|Hnz].
  - right. split; [reflexivity|]. split; vm_compute; reflexivity.
  - left. by apply stencil_zero_halo.
Qed.

Lemma jacobi_step_stencil_witness :
  rd (vt (jacobi_step 1 1 (Mem (calloc 9) (wr (calloc 9) 4 2%float) (calloc 9)))) (1*(1+2)+1)
  = ((rd (wr (calloc 9) 4 2%float) (1*(1+2)+1) + rd (calloc 9) ((1+1)*(1+2)+1)
      + rd (calloc 9) ((1-1)*(1+2)+1) + rd (calloc 9) (1*(1+2)+(1+1))
      + rd (calloc 9) (1*(1+2)+(1-1))) / 4)%float.
Proof.
  apply (proj1 (jacobi_step_stencil 1 1
                  (Mem (calloc 9) (wr (calloc 9) 4 2%float) (calloc 9)) eq_refl)); lia.
Defined.

Lemma jacobi_step_effect N M m :
  vx (jacobi_step N M m) = vx m
  ∧ vb (jacobi_step N M m) = vb m
  ∧ length (vt (jacobi_step N M m)) = length (vt m)
  ∧ (∀ n, ¬ interior_offset N M n → vt (jacobi_step N M m) !! n = vt m !! n).
Proof.
  rewrite jacobi_step_fill. cbn [vx vb vt set_vt]. split_and!; [done|done| |].
  - apply length_fill.
  - intros n Hn. by apply fill_other.
Qed.

(** C8. One call of [jacobi_step] changes neither [x] nor [b]; of [t] it
    changes only entries at offsets of interior points, and what it stores
    there does not depend on what [t] held. *)
Theorem jacobi_step_frame (N M : Z) (m : mem) :
  vx (jacobi_step N M m) = vx m
  ∧ vb (jacobi_step N M m) = vb m
  ∧ length (vt (jacobi_step N M m)) = length (vt m)
  ∧ (∀ n, ¬ interior_offset N M n → vt (jacobi_step N M m) !! n = vt m !! n)
  ∧ (∀ t' n, length t' = length (vt m) → interior_offset N M n →
       vt (jacobi_step N M (set_vt m t')) !! n = vt (jacobi_step N M m) !! n).
Proof.
  destruct (jacobi_step_effect N M m) as (Hx & Hb & Hlen & Hother).
  split_and!; [done..|].
  intros t' n Hlen' (i & j & Hi & Hj & ->).
  rewrite !jacobi_step_fill. cbn [vx vb vt set_vt].
  destruct (decide (Z.to_nat (i*(M+2)+j) < length t')%nat) as [Hlt|Hge].
  - rewrite !fill_interior_lt; [done|lia|done..].
  - rewrite !lookup_ge_None_2; [done|rewrite length_fill; lia..].
Qed.

Lemma jacobi_step_frame_witness :
  vt (jacobi_step 1 1 (Mem (calloc 9) (wr (calloc 9) 4 2%float) (calloc 9))) !! 0%nat
  = calloc 9 !! 0%nat.
Proof.
  apply (proj1 (proj2 (proj2 (proj2 (jacobi_step_frame 1 1
           (Mem (calloc 9) (wr (calloc 9) 4 2%float) (calloc 9))))))).
  intros (i & j & Hi & Hj & Heq). lia.
Defined.

(** ** The loop of the controller *)

Lemma while_loop_unfold fuel N M cap st :
  while_loop fuel N M cap st
  = if guard cap st then
      match fuel with
      | O => None
      | S fuel' => while_loop fuel' N M cap (cycle N M st)
      end
    else Some st.
Proof. by destruct fuel. Qed.

Lemma cycle_k N M st : st_k (cycle N M st) = st_k st + 1.
Proof. reflexivity. Qed.

Lemma cycle_conv N M st :
  st_conv (cycle N M st) = (sqrt (st_s (cycle N M st)) <? tol)%float.
Proof. reflexivity. Qed.

Lemma cycle_out N M st :
  st_out (cycle N M st) = st_out st ++ [(st_k st, sqrt (st_s (cycle N M st)))].
Proof. reflexivity. Qed.

Lemma guard_true cap st :
  guard cap st = true ↔ st_conv st = false ∧ st_k st < cap.
Proof.
  unfold guard. rewrite andb_true_iff, negb_true_iff, Z.ltb_lt. done.
Qed.

Lemma guard_false cap st :
  guard cap st = false ↔ st_conv st = true ∨ cap ≤ st_k st.
Proof.
  unfold guard. rewrite andb_false_iff, negb_false_iff, Z.ltb_ge. done.
Qed.

(** With fuel for the cycles that remain below the cap, the loop reaches its
    exit, after [n] cycles in which [k] has gone up by [n]. *)
Lemma while_loop_total N M cap fuel st :
  cap - st_k st ≤ Z.of_nat fuel →
  ∃ n, while_loop fuel N M cap st = Some (Nat.iter n (cycle N M) st)
       ∧ guard cap (Nat.iter n (cycle N M) st) = false
       ∧ st_k (Nat.iter n (cycle N M) st) = st_k st + Z.of_nat n
       ∧ (∀ i, (i < n)%nat → guard cap (Nat.iter i (cycle N M) st) = true).
Proof.
  revert st. induction fuel as [|fuel IH]; intros st Hfuel.
  - exists 0%nat. rewrite while_loop_unfold. cbn [Nat.iter nat_rect].
    destruct (guard cap st) eqn:Hg.
    + apply guard_true in Hg. lia.
    + split_and!; [done|done|lia|]. intros i Hi. lia.
  - rewrite while_loop_unfold. destruct (guard cap st) eqn:Hg.
    + destruct (IH (cycle N M st)) as (n & Hrun & Hex & Hk & Hbefore).
      { rewrite cycle_k. lia. }
      exists (S n). rewrite Nat.iter_succ_r. split_and!; [done|done| |].
      * rewrite Hk, cycle_k. lia.
      * intros [|i] Hi; [done|]. rewrite Nat.iter_succ_r. apply Hbefore. lia.
    + exists 0%nat. cbn [Nat.iter nat_rect]. split_and!; [done|done|lia|]. intros i Hi. lia.
Qed.

Lemma iter_cycle_k N M n st :
  st_k (Nat.iter n (cycle N M) st) = st_k st + Z.of_nat n.
Proof.
  induction n as [|n IH]; [cbn; lia|]. rewrite Nat.iter_succ, cycle_k, IH. lia.
Qed.

(** [solve] returns, for every cap and every input. *)
Lemma solve_total cap N M x b :
  ∃ n, solve cap N M x b = Some (Nat.iter n (cycle N M) (init_state N M x b))
       ∧ guard cap (Nat.iter n (cycle N M) (init_state N M x b)) = false
       ∧ (∀ i, (i < n)%nat →
            guard cap (Nat.iter i (cycle N M) (init_state N M x b)) = true)
       ∧ Z.of_nat n ≤ Z.max 0 cap.
Proof.
  destruct (while_loop_total N M cap (Z.to_nat cap) (init_state N M x b))
    as (n & Hrun & Hex & Hk & Hbefore).
  { cbn [st_k init_state]. lia. }
  exists n. split_and!; [done|done|done|].
  destruct n as [|n]; [lia|].
  specialize (Hbefore n (Nat.lt_succ_diag_r n)). apply guard_true in Hbefore.
  rewrite iter_cycle_k in Hbefore. cbn [st_k init_state] in Hbefore. lia.
Qed.

(** C3. [jacobi_poisson] returns for every input. Its counter [k] starts at
    [0] and every cycle adds [1] to it; the loop makes at most
    [maxit = 70000] cycles, as many as the final [k]; and when it ends
    without convergence the final [k] is exactly [maxit]. *)
Theorem jacobi_poisson_terminates (N M : Z) (x b : buffer) :
  maxit = 70000
  ∧ st_k (init_state N M x b) = 0
  ∧ st_conv (init_state N M x b) = false
  ∧ (∀ st, st_k (cycle N M st) = st_k st + 1)
  ∧ ∃ n st',
      jacobi_poisson_run N M x b = Some st'
      ∧ st' = Nat.iter n (cycle N M) (init_state N M x b)
      ∧ st_k st' = Z.of_nat n
      ∧ 1 ≤ st_k st' ≤ maxit
      ∧ control_of maxit st' ≠ Running
      ∧ (∀ i, (i < n)%nat →
           control_of maxit (Nat.iter i (cycle N M) (init_state N M x b)) = Running)
      ∧ (st_conv st' = false → st_k st' = maxit)
      ∧ (st_conv st' = false → control_of maxit st' = Exhausted).
Proof.
  split_and!; [done|done|done|done|].
  destruct (solve_total maxit N M x b) as (n & Hrun & Hex & Hbefore & Hn).
  exists n, (Nat.iter n (cycle N M) (init_state N M x b)).
  assert (st_k (Nat.iter n (cycle N M) (init_state N M x b)) = Z.of_nat n) as Hk.
  { rewrite iter_cycle_k. cbn [st_k init_state]. lia. }
  assert (∀ st, guard maxit st = true ↔ control_of maxit st = Running) as Hrunning.
  { intros st. rewrite guard_true. unfold control_of.
    destruct (st_conv st); [split; [intros [? _]|]; done|].
    destruct (Z.ltb_spec (st_k st) maxit); split; try done; intros []; lia. }
  assert (n ≠ 0%nat) as Hpos.
  { intros ->. cbn in Hex. discriminate. }
  split_and!; [done|done|done|lia| | | | |].
  - unfold maxit in *. lia.
  - rewrite <- Hrunning, Hex. done.
  - intros i Hi. by apply Hrunning, Hbefore.
  - intros Hc. apply guard_false in Hex as [Hc'|Hc']; [congruence|].
    unfold maxit in *. lia.
  - intros Hc. unfold control_of. rewrite Hc.
    apply guard_false in Hex as [Hc'|Hc']; [congruence|].
    destruct (Z.ltb_spec (st_k (Nat.iter n (cycle N M) (init_state N M x b))) maxit);
      [lia|done].
Qed.

Lemma jacobi_poisson_terminates_witness :
  st_conv (Nat.iter 1 (cycle 1 1) (init_state 1 1 (calloc 9) (calloc 9))) = true
  ∧ control_of maxit (Nat.iter 0 (cycle 1 1) (init_state 1 1 (calloc 9) (calloc 9)))
    = Running.
Proof.
  destruct (jacobi_poisson_terminates 1 1 (calloc 9) (calloc 9))
    as (_ & _ & _ & _ & n & st' & Hrun & Hst & Hk & Hle & Hterm & Hbefore & Hex & _).
  split; [vm_compute; reflexivity|].
  apply Hbefore. lia.
Defined.

(** ** The convergence test *)

Lemma sum_sq_spec N M x t :
  sum_sq N M x t = float_sum (squared_differences N M x t).
Proof.
  unfold sum_sq, float_sum, squared_differences.
  by rewrite for_interior_flat, foldl_fmap.
Qed.

Lemma add_zero_l (v : float) : v ≠ neg_zero → (0 + v)%float = v.
Proof.
  intros Hv. apply Prim2SF_inj. rewrite add_spec.
  change (Prim2SF 0) with (S754_zero false).
  destruct (Prim2SF v) as [[|]| | |] eqn:Hsf; try reflexivity.
  destruct Hv. apply Prim2SF_inj. rewrite Hsf. reflexivity.
Qed.

Lemma concat_perm {A : Type} (ls ls' : list (list A)) :
  ls ≡ₚ ls' → concat ls ≡ₚ concat ls'.
Proof.
  induction 1 as [|l ls ls' _ IH|l l' ls|ls ls' ls'' _ IH1 _ IH2]; cbn [concat].
  - done.
  - by rewrite IH.
  - rewrite !app_assoc. f_equiv. apply Permutation_app_comm.
  - by rewrite IH1.
Qed.

Lemma float_sum_of_perm l l' v : l ≡ₚ l' → float_sum_of l v → float_sum_of l' v.
Proof.
  intros Hperm Hsum. destruct Hsum as [|w|l l1 l2 v1 v2 Hl H1 H2].
  - apply Permutation_nil_l in Hperm as <-. constructor.
  - apply Permutation_singleton_l in Hperm as <-. constructor.
  - apply (float_sum_add l' l1 l2); [|done..]. by rewrite <- Hperm.
Qed.

Lemma foldl_float_sum_of {P : Type} (g : P → float) (chunk : list P) l0 s :
  float_sum_of l0 s →
  float_sum_of (l0 ++ (g <$> chunk)) (foldl (λ s p, (s + g p)%float) s chunk).
Proof.
  revert l0 s. induction chunk as [|p chunk IH]; intros l0 s Hs; cbn [foldl fmap list_fmap].
  - by rewrite app_nil_r.
  - replace (l0 ++ g p :: (g <$> chunk)) with ((l0 ++ [g p]) ++ (g <$> chunk))
      by (by rewrite <- app_assoc).
    apply IH.
    apply (float_sum_add _ l0 [g p]); [done|done|constructor].
Qed.

Lemma partial_sum_float_sum_of {P : Type} (g : P → float) (chunk : list P) :
  float_sum_of (g <$> chunk) (partial_sum g chunk).
Proof. apply (foldl_float_sum_of g chunk [] 0%float). constructor. Qed.

(** Whatever the distribution of the iterations and the order of the
    combination, a reduction that starts from [0] adds every term once. *)
Lemma reduced_float_sum_of {P : Type} (g : P → float) o chunks v :
  reduced g 0%float o chunks v → float_sum_of (g <$> concat chunks) v.
Proof.
  induction 1 as [|chunk|o1 o2 cs1 cs2 cs v1 v2 Hcs _ _ IH1 _ IH2].
  - constructor.
  - cbn [concat]. rewrite app_nil_r. apply partial_sum_float_sum_of.
  - apply (float_sum_add _ (g <$> concat cs1) (g <$> concat cs2)); [|done..].
    rewrite <- fmap_app, <- concat_app. by rewrite (concat_perm _ _ Hcs).
Qed.

Lemma reduced_one_thread {P : Type} (g : P → float) s0 (chunk : list P) :
  reduced g s0 true [chunk] (s0 + partial_sum g chunk)%float.
Proof.
  apply (reduced_combine g s0 true false [] [chunk]); [done|done|constructor..].
Qed.

Lemma reduced_two_threads {P : Type} (g : P → float) s0 (c1 c2 : list P) :
  reduced g s0 true [c1; c2] (s0 + partial_sum g c1 + partial_sum g c2)%float.
Proof.
  apply (reduced_combine g s0 true false [c1] [c2]); [done|done| |constructor].
  apply reduced_one_thread.
Qed.

(** The loop nest in source order on one thread is one of the schedules. *)
Lemma cycle_one_thread N M st :
  st_s (cycle N M st) ≠ neg_zero → cycle_omp N M st (cycle N M st).
Proof.
  intros Hs. exists (st_s (cycle N M st)). split; [|reflexivity].
  exists [interior N M]. split; [cbn [concat]; by rewrite app_nil_r|].
  replace (st_s (cycle N M st)) with (0 + st_s (cycle N M st))%float
    by (by apply add_zero_l).
  cbn [cycle st_s]. unfold sum_sq. rewrite for_interior_flat.
  apply (reduced_one_thread (sq_diff M _ _) 0%float (interior N M)).
Qed.

(** C2. In every cycle, under every schedule of the reduction, the
    convergence test computes [s] as a sum over the interior points of
    [(x[i,j]-t[i,j])²], every point entering once, with [x] the iterate the
    cycle started from and [t] the result of its sweep; it prints [sqrt(s)]
    as the residual of iteration [k], and sets [conv] exactly when
    [sqrt(s) < 1e-6]. *)
Theorem cycle_convergence_test (N M : Z) (st st' : state) :
  cycle_omp N M st st' →
  float_sum_of
    (squared_differences N M (vx (st_mem st)) (vt (jacobi_step N M (st_mem st))))
    (st_s st')
  ∧ last (st_out st') = Some (st_k st, sqrt (st_s st'))
  ∧ (st_conv st' = true ↔ (sqrt (st_s st') <? 1e-6)%float = true).
Proof.
  intros (s & (chunks & Hperm & Hred) & ->). cbn [st_s st_out st_conv].
  split_and!.
  - destruct (jacobi_step_effect N M (st_mem st)) as (Hx & _). rewrite Hx in Hred.
    apply reduced_float_sum_of in Hred.
    apply (float_sum_of_perm _ _ _ (fmap_Permutation _ _ _ Hperm)) in Hred.
    exact Hred.
  - apply last_snoc.
  - done.
Qed.

Lemma cycle_convergence_test_witness :
  float_sum_of
    (squared_differences 1 1 (calloc 9)
       (vt (jacobi_step 1 1 (st_mem (init_state 1 1 (calloc 9) (wr (calloc 9) 4 2%float))))))
    (st_s (cycle 1 1 (init_state 1 1 (calloc 9) (wr (calloc 9) 4 2%float)))).
Proof.
  assert (cycle_omp 1 1 (init_state 1 1 (calloc 9) (wr (calloc 9) 4 2%float))
            (cycle 1 1 (init_state 1 1 (calloc 9) (wr (calloc 9) 4 2%float)))) as Hcycle.
  { apply cycle_one_thread. intros Hz. apply (f_equal Prim2SF) in Hz.
    vm_compute in Hz. discriminate. }
  exact (proj1 (cycle_convergence_test 1 1 _ _ Hcycle)).
Defined.

(** Schedules do give different sums. On the 1 by 5 grid with the squared
    differences [1, 2^-54, 2^-54, 2^-54, 2^-54], one thread finds [1]; two
    threads, the first taking the first point, find [1 + 2^-52]. *)
Example reduction_depends_on_schedule :
  let x := calloc 21 in
  let t := wr (wr (wr (wr (wr (calloc 21) 8 (-1)%float) 9 (-0x1p-27)%float)
                     10 (-0x1p-27)%float) 11 (-0x1p-27)%float) 12 (-0x1p-27)%float in
  sum_sq_omp 1 5 x t 1%float
  ∧ sum_sq_omp 1 5 x t 0x1.0000000000001p+0%float
  ∧ sum_sq 1 5 x t = 1%float.
Proof.
  intros x t. split_and!.
  - exists [interior 1 5]. split; [by vm_compute|].
    replace 1%float with (0 + partial_sum (sq_diff 5 x t) (interior 1 5))%float
      by (vm_compute; reflexivity).
    apply reduced_one_thread.
  - exists [[(1, 1)]; [(1, 2); (1, 3); (1, 4); (1, 5)]]. split; [by vm_compute|].
    replace 0x1.0000000000001p+0%float
      with (PrimFloat.add
              (PrimFloat.add 0%float (partial_sum (sq_diff 5 x t) [(1, 1)]))
              (partial_sum (sq_diff 5 x t) [(1, 2); (1, 3); (1, 4); (1, 5)]))
      by (vm_compute; reflexivity).
    apply reduced_two_threads.
  - vm_compute. reflexivity.
Qed.

(** ** The halo *)

Lemma copy_back_frame N M m :
  vb (copy_back N M m) = vb m
  ∧ vt (copy_back N M m) = vt m
  ∧ length (vx (copy_back N M m)) = length (vx m)
  ∧ (∀ n, ¬ interior_offset N M n → vx (copy_back N M m) !! n = vx m !! n).
Proof.
  rewrite copy_back_fill. cbn [vx vb vt set_vx]. split_and!; [done|done| |].
  - apply length_fill.
  - intros n Hn. by apply fill_other.
Qed.

Lemma cycle_frame N M st n :
  ¬ interior_offset N M n →
  vx (st_mem (cycle N M st)) !! n = vx (st_mem st) !! n
  ∧ vt (st_mem (cycle N M st)) !! n = vt (st_mem st) !! n.
Proof.
  intros Hn. cbn [cycle st_mem].
  destruct (copy_back_frame N M (jacobi_step N M (st_mem st))) as (_ & -> & _ & ->);
    [|done].
  destruct (jacobi_step_effect N M (st_mem st)) as (-> & _ & _ & ->); done.
Qed.

Lemma cycle_vb N M st : vb (st_mem (cycle N M st)) = vb (st_mem st).
Proof.
  cbn [cycle st_mem].
  destruct (copy_back_frame N M (jacobi_step N M (st_mem st))) as (-> & _).
  by destruct (jacobi_step_effect N M (st_mem st)) as (_ & -> & _).
Qed.

Lemma iter_cycle_frame N M st k n :
  ¬ interior_offset N M n →
  vx (st_mem (Nat.iter k (cycle N M) st)) !! n = vx (st_mem st) !! n
  ∧ vt (st_mem (Nat.iter k (cycle N M) st)) !! n = vt (st_mem st) !! n.
Proof.
  intros Hn. induction k as [|k [IHx IHt]]; [done|].
  rewrite Nat.iter_succ.
  destruct (cycle_frame N M (Nat.iter k (cycle N M) st) n Hn) as [-> ->]. done.
Qed.

(** C4. When the halo of [x] is zero on entry ([t] is allocated zeroed), the
    halo of [x] and of [t] is zero after any number of cycles, also between
    the sweep and the copy of a cycle, and in the state in which
    [jacobi_poisson] returns; and the sweep and the copy leave every entry of
    [x], [b] and [t] that is not at the offset of an interior point as it
    was (the reduction stores into no buffer). *)
Theorem boundary_invariant (N M : Z) (x b : buffer) :
  (∀ i j, on_boundary N M i j → rd x (i*(M+2)+j) = 0%float) →
  (∀ k i j, on_boundary N M i j →
     let st := Nat.iter k (cycle N M) (init_state N M x b) in
     rd (vx (st_mem st)) (i*(M+2)+j) = 0%float
     ∧ rd (vt (st_mem st)) (i*(M+2)+j) = 0%float
     ∧ rd (vx (jacobi_step N M (st_mem st))) (i*(M+2)+j) = 0%float
     ∧ rd (vt (jacobi_step N M (st_mem st))) (i*(M+2)+j) = 0%float)
  ∧ (∃ st', jacobi_poisson_run N M x b = Some st'
       ∧ ∀ i j, on_boundary N M i j →
           rd (vx (st_mem st')) (i*(M+2)+j) = 0%float
           ∧ rd (vt (st_mem st')) (i*(M+2)+j) = 0%float)
  ∧ (∀ m i j, on_boundary N M i j →
       let o := Z.to_nat (i*(M+2)+j) in
       vx (jacobi_step N M m) = vx m ∧ vb (jacobi_step N M m) = vb m
       ∧ vt (jacobi_step N M m) !! o = vt m !! o
       ∧ vx (copy_back N M m) !! o = vx m !! o
       ∧ vb (copy_back N M m) = vb m ∧ vt (copy_back N M m) = vt m).
Proof.
  intros Hx.
  assert (∀ k i j, on_boundary N M i j →
     rd (vx (st_mem (Nat.iter k (cycle N M) (init_state N M x b)))) (i*(M+2)+j) = 0%float
     ∧ rd (vt (st_mem (Nat.iter k (cycle N M) (init_state N M x b)))) (i*(M+2)+j)
       = 0%float) as Hinv.
  { intros k i j Hb. unfold rd.
    destruct (iter_cycle_frame N M (init_state N M x b) k (Z.to_nat (i*(M+2)+j)))
      as [-> ->]; [by apply boundary_not_interior|].
    split; [by apply Hx|]. apply rd_calloc. }
  split_and!.
  - intros k i j Hb st. destruct (Hinv k i j Hb) as [Hvx Hvt].
    split_and!; [done|done| |].
    + by destruct (jacobi_step_effect N M (st_mem st)) as (-> & _).
    + unfold rd.
      destruct (jacobi_step_effect N M (st_mem st)) as (_ & _ & _ & ->);
        [done|by apply boundary_not_interior].
  - destruct (solve_total maxit N M x b) as (n & Hrun & _).
    eexists. split; [exact Hrun|]. intros i j Hb. by apply Hinv.
  - intros m i j Hb o.
    destruct (jacobi_step_effect N M m) as (-> & -> & _ & ->);
      [|by apply boundary_not_interior].
    destruct (copy_back_frame N M m) as (-> & -> & _ & ->);
      [done|by apply boundary_not_interior].
Qed.

Lemma boundary_invariant_witness :
  rd (vx (st_mem (Nat.iter 2 (cycle 1 1)
        (init_state 1 1 (calloc 9) (wr (calloc 9) 4 2%float))))) (0*(1+2)+1) = 0%float.
Proof.
  assert (∀ i j, on_boundary 1 1 i j → rd (calloc 9) (i*(1+2)+j) = 0%float) as Hx.
  { intros i j _. apply rd_calloc. }
  apply (proj1 (boundary_invariant 1 1 (calloc 9) (wr (calloc 9) 4 2%float) Hx) 2%nat 0 1).
  unfold on_boundary. lia.
Defined.

(** ** The copy at the end of a cycle *)

Lemma float_neq (u v : float) : (u =? v)%float = false → is_nan u = false → u ≠ v.
Proof.
  intros Hne Hnan ->. unfold is_nan in Hnan.
  rewrite Hne in Hnan. discriminate.
Qed.

Lemma cycle_lengths N M st :
  length (vx (st_mem (cycle N M st))) = length (vx (st_mem st))
  ∧ length (vt (st_mem (cycle N M st))) = length (vt (st_mem st)).
Proof.
  cbn [cycle st_mem].
  destruct (copy_back_frame N M (jacobi_step N M (st_mem st))) as (_ & -> & -> & _).
  by destruct (jacobi_step_effect N M (st_mem st)) as (-> & _ & -> & _).
Qed.

Lemma iter_cycle_lengths N M k st :
  length (vx (st_mem (Nat.iter k (cycle N M) st))) = length (vx (st_mem st))
  ∧ length (vt (st_mem (Nat.iter k (cycle N M) st))) = length (vt (st_mem st)).
Proof.
  induction k as [|k [IHx IHt]]; [done|]. rewrite Nat.iter_succ.
  destruct (cycle_lengths N M (Nat.iter k (cycle N M) st)) as [-> ->]. done.
Qed.

Lemma cycle_copies N M st i j :
  (N+2)*(M+2) ≤ Z.of_nat (length (vx (st_mem st))) →
  1 ≤ i ≤ N → 1 ≤ j ≤ M →
  rd (vx (st_mem (cycle N M st))) (i*(M+2)+j)
  = rd (vt (st_mem (cycle N M st))) (i*(M+2)+j).
Proof.
  intros Hlen Hi Hj. cbn [cycle st_mem]. rewrite copy_back_fill.
  cbn [vx vt set_vx]. rewrite rd_fill_interior; [done| |done..].
  by destruct (jacobi_step_effect N M (st_mem st)) as (-> & _).
Qed.

(** C5, as the code has it. Every cycle ends with the copy of [t] into the
    interior of [x], whatever the convergence test has found: after a cycle
    the interior of [x] is the interior of [t], the result of the sweep of
    that cycle, and so it is in the state in which [jacobi_poisson]
    returns. *)
Theorem cycle_copies_always (N M : Z) :
  (∀ st i j,
     (N+2)*(M+2) ≤ Z.of_nat (length (vx (st_mem st))) →
     1 ≤ i ≤ N → 1 ≤ j ≤ M →
     rd (vx (st_mem (cycle N M st))) (i*(M+2)+j)
     = rd (vt (jacobi_step N M (st_mem st))) (i*(M+2)+j))
  ∧ (∀ x b, sized N M x →
       ∃ st', jacobi_poisson_run N M x b = Some st'
         ∧ ∀ i j, 1 ≤ i ≤ N → 1 ≤ j ≤ M →
             rd (vx (st_mem st')) (i*(M+2)+j) = rd (vt (st_mem st')) (i*(M+2)+j)).
Proof.
  split.
  - intros st i j Hlen Hi Hj. rewrite cycle_copies by done.
    cbn [cycle st_mem]. by destruct (copy_back_frame N M (jacobi_step N M (st_mem st)))
      as (_ & -> & _).
  - intros x b Hsz.
    destruct (solve_total maxit N M x b) as (n & Hrun & Hex & _).
    eexists. split; [exact Hrun|]. intros i j Hi Hj.
    destruct n as [|n]; [cbn in Hex; discriminate|].
    rewrite Nat.iter_succ. apply cycle_copies; [|done..].
    destruct (iter_cycle_lengths N M n (init_state N M x b)) as [-> _].
    cbn [init_state st_mem vx]. unfold sized in Hsz. lia.
Qed.

Lemma cycle_copies_always_witness :
  rd (vx (st_mem (cycle 1 1 (init_state 1 1 (calloc 9) (wr (calloc 9) 4 2%float)))))
     (1*(1+2)+1)
  = rd (vt (jacobi_step 1 1 (st_mem (init_state 1 1 (calloc 9) (wr (calloc 9) 4 2%float)))))
     (1*(1+2)+1).
Proof.
  apply (proj1 (cycle_copies_always 1 1)); [vm_compute; discriminate|lia|lia].
Defined.

(** C5, as stated, fails: on the 1 by 1 grid with [x = 0] and
    [b[1,1] = 2^-23] the first cycle finds the residual [2^-25 < 1e-6], the
    loop stops, and [x[1,1]] has been overwritten with [t[1,1] = 2^-25]: the
    field returned is the result of the last sweep, not the iterate before
    it. *)
Lemma converged_cycle_copies :
  st_conv (cycle 1 1 (init_state 1 1 (calloc 9) (wr (calloc 9) 4 0x1p-23%float))) = true
  ∧ rd (vx (st_mem (cycle 1 1 (init_state 1 1 (calloc 9) (wr (calloc 9) 4 0x1p-23%float))))) 4
    ≠ rd (vx (st_mem (init_state 1 1 (calloc 9) (wr (calloc 9) 4 0x1p-23%float)))) 4
  ∧ jacobi_poisson 1 1 (calloc 9) (wr (calloc 9) 4 0x1p-23%float)
    = Some (wr (calloc 9) 4 0x1p-25%float, wr (calloc 9) 4 0x1p-23%float)
  ∧ wr (calloc 9) 4 0x1p-25%float ≠ calloc 9.
Proof.
  split_and!.
  - vm_compute. reflexivity.
  - apply float_neq; vm_compute; reflexivity.
  - vm_compute. reflexivity.
  - intros Heq. apply (f_equal (λ a, rd a 4)) in Heq. revert Heq.
    apply float_neq; vm_compute; reflexivity.
Qed.

(** ** What the caller of [jacobi_poisson] receives *)

Lemma iter_cycle_vb N M k st :
  vb (st_mem (Nat.iter k (cycle N M) st)) = vb (st_mem st).
Proof.
  induction k as [|k IH]; [done|]. by rewrite Nat.iter_succ, cycle_vb.
Qed.

Lemma iter_cycle_out_length N M k st :
  length (st_out (Nat.iter k (cycle N M) st)) = (length (st_out st) + k)%nat.
Proof.
  induction k as [|k IH]; [cbn; lia|].
  rewrite Nat.iter_succ, cycle_out, length_app, IH. cbn. lia.
Qed.

(** C6, as the code has it. [jacobi_poisson] returns for every input and
    hands back the field [x'] in place (with [b] as it was) and nothing else.
    The iteration count and the residual go to the standard output only, one
    record per cycle: there are as many records as the final count [k], the
    last one carries [k-1] and the final residual, and the run has ended
    Converged exactly when that residual is below [tol], Exhausted
    otherwise. *)
Theorem jacobi_poisson_result (N M : Z) (x b : buffer) :
  ∃ st',
    jacobi_poisson_run N M x b = Some st'
    ∧ jacobi_poisson N M x b = Some (vx (st_mem st'), b)
    ∧ jacobi_poisson_stdout N M x b = Some (st_out st')
    ∧ Z.of_nat (length (st_out st')) = st_k st'
    ∧ last (st_out st') = Some (st_k st' - 1, sqrt (st_s st'))
    ∧ (control_of maxit st' = Converged ↔ (sqrt (st_s st') <? tol)%float = true)
    ∧ (control_of maxit st' = Exhausted ↔ (sqrt (st_s st') <? tol)%float = false).
Proof.
  destruct (solve_total maxit N M x b) as (n & Hrun & Hex & _).
  exists (Nat.iter n (cycle N M) (init_state N M x b)).
  unfold jacobi_poisson, jacobi_poisson_stdout, jacobi_poisson_run.
  rewrite Hrun. cbn [fmap option_fmap option_map].
  rewrite iter_cycle_vb, iter_cycle_out_length, iter_cycle_k.
  cbn [init_state st_mem st_out st_k vb length].
  split_and!; [done|done|done|lia|..];
    (destruct n as [|n]; [cbn in Hex; discriminate|]);
    rewrite Nat.iter_succ in *.
  - rewrite cycle_out, last_snoc, iter_cycle_k. cbn [init_state st_k].
    do 2 f_equal. lia.
  - unfold control_of. rewrite <- cycle_conv.
    destruct (st_conv (cycle N M _)); [done|]. by destruct (_ <? _).
  - unfold control_of. rewrite <- cycle_conv.
    apply guard_false in Hex as [Hc|Hc]; [by rewrite Hc|].
    destruct (st_conv (cycle N M _)); [done|].
    by destruct (Z.ltb_spec (st_k (cycle N M (Nat.iter n (cycle N M)
                                     (init_state N M x b)))) maxit); [lia|].
Qed.

(** C6, as stated, fails: what the call hands back determines neither the
    iteration count nor the residual. On the 1 by 1 grid with [b = 0] the
    calls with [x[1,1] = 0], with [x[1,1] = 1] and with [x[1,1] = 2^-21] all
    hand back the same zero field, after 1, 2 and 1 cycles, with final
    residuals 0, 0 and [2^-21]. *)
Lemma count_and_residual_not_returned :
  jacobi_poisson 1 1 (wr (calloc 9) 4 1%float) (calloc 9)
  = jacobi_poisson 1 1 (calloc 9) (calloc 9)
  ∧ jacobi_poisson 1 1 (wr (calloc 9) 4 0x1p-21%float) (calloc 9)
    = jacobi_poisson 1 1 (calloc 9) (calloc 9)
  ∧ st_k <$> jacobi_poisson_run 1 1 (calloc 9) (calloc 9) = Some 1
  ∧ st_k <$> jacobi_poisson_run 1 1 (wr (calloc 9) 4 1%float) (calloc 9) = Some 2
  ∧ (λ st, sqrt (st_s st)) <$> jacobi_poisson_run 1 1 (calloc 9) (calloc 9)
    = Some 0%float
  ∧ (λ st, sqrt (st_s st))
      <$> jacobi_poisson_run 1 1 (wr (calloc 9) 4 0x1p-21%float) (calloc 9)
    = Some 0x1p-21%float
  ∧ ¬ ∃ count : buffer * buffer → Z,
        ∀ N M x b st r,
          jacobi_poisson_run N M x b = Some st → jacobi_poisson N M x b = Some r →
          count r = st_k st.
Proof.
  split_and!; [vm_compute; reflexivity..|].
  intros (count & Hcount).
  assert (∃ st r, jacobi_poisson_run 1 1 (calloc 9) (calloc 9) = Some st
                  ∧ jacobi_poisson 1 1 (calloc 9) (calloc 9) = Some r
                  ∧ st_k st = 1 ∧ r = (calloc 9, calloc 9))
    as (st1 & r1 & Hrun1 & Hres1 & Hk1 & ->)
    by (vm_compute; eexists _, _; split_and!; reflexivity).
  assert (∃ st r, jacobi_poisson_run 1 1 (wr (calloc 9) 4 1%float) (calloc 9) = Some st
                  ∧ jacobi_poisson 1 1 (wr (calloc 9) 4 1%float) (calloc 9) = Some r
                  ∧ st_k st = 2 ∧ r = (calloc 9, calloc 9))
    as (st2 & r2 & Hrun2 & Hres2 & Hk2 & ->)
    by (vm_compute; eexists _, _; split_and!; reflexivity).
  pose proof (Hcount _ _ _ _ _ _ Hrun1 Hres1) as H1.
  pose proof (Hcount _ _ _ _ _ _ Hrun2 Hres2) as H2.
  rewrite Hk1 in H1. rewrite Hk2 in H2. rewrite H1 in H2. discriminate.
Qed.

(** ** An empty interior *)

Lemma cycle_empty N M st :
  N ≤ 0 ∨ M ≤ 0 →
  cycle N M st
  = State (st_mem st) (st_k st + 1) true 0%float (st_out st ++ [(st_k st, 0%float)]).
Proof.
  intros Hempty. unfold cycle, jacobi_step, sum_sq, copy_back.
  rewrite !for_interior_empty by done. reflexivity.
Qed.

(** C10. When [N = 0] or [M = 0] the interior is empty and
    [jacobi_poisson] makes exactly one cycle: the sum is [0], [sqrt(0) < 1e-6]
    holds, and it returns Converged with residual [0], having printed that one
    record and left every entry of [x] as it was. *)
Theorem empty_interior_converges (N M : Z) (x b : buffer) :
  N = 0 ∨ M = 0 →
  ∃ st',
    jacobi_poisson_run N M x b = Some st'
    ∧ st' = cycle N M (init_state N M x b)
    ∧ st_k st' = 1
    ∧ control_of maxit st' = Converged
    ∧ st_s st' = 0%float
    ∧ sqrt (st_s st') = 0%float
    ∧ (sqrt (st_s st') <? 1e-6)%float = true
    ∧ st_out st' = [(0, 0%float)]
    ∧ vx (st_mem st') = x
    ∧ jacobi_poisson N M x b = Some (x, b).
Proof.
  intros Hempty.
  assert (N ≤ 0 ∨ M ≤ 0) as Hle by lia.
  assert (jacobi_poisson_run N M x b = Some (cycle N M (init_state N M x b))) as Hrun.
  { unfold jacobi_poisson_run, solve.
    replace (Z.to_nat maxit) with (S (Z.to_nat (maxit - 1))) by (unfold maxit; lia).
    cbn [while_loop]. change (guard maxit (init_state N M x b)) with true.
    cbv iota. rewrite while_loop_unfold, cycle_empty by done. reflexivity. }
  eexists. split; [exact Hrun|].
  unfold jacobi_poisson. rewrite Hrun, cycle_empty by done.
  split_and!; reflexivity.
Qed.

Lemma empty_interior_converges_witness :
  ∃ st', jacobi_poisson_run 0 3 (calloc 10) (calloc 10) = Some st'
         ∧ st_k st' = 1 ∧ vx (st_mem st') = calloc 10.
Proof.
  destruct (empty_interior_converges 0 3 (calloc 10) (calloc 10))
    as (st' & Hrun & _ & Hk & _ & _ & _ & _ & _ & Hx & _); [by left|].
  by exists st'.
Defined.

(** ** The driver: arguments and exit code *)

(** C7, as the code has it. The fallback is taken for the arguments [atoi]
    reads as a negative number, and only for them: then [N] becomes [50] and
    [M] becomes [1]. An argument read as [n >= 0] gives the dimension [n];
    a missing argument leaves the default [50]. *)
Theorem argument_fallback (argv : list string) :
  ((1 < length argv)%nat → atoi (arg argv 1) < 0 → arg_N argv = 50)
  ∧ ((1 < length argv)%nat → 0 ≤ atoi (arg argv 1) → arg_N argv = atoi (arg argv 1))
  ∧ ((length argv ≤ 1)%nat → arg_N argv = 50)
  ∧ ((2 < length argv)%nat → atoi (arg argv 2) < 0 → arg_M argv = 1)
  ∧ ((2 < length argv)%nat → 0 ≤ atoi (arg argv 2) → arg_M argv = atoi (arg argv 2))
  ∧ ((length argv ≤ 2)%nat → arg_M argv = 50).
Proof.
  unfold arg_N, arg_M.
  destruct (Z.ltb_spec 1 (Z.of_nat (length argv)));
    destruct (Z.ltb_spec 2 (Z.of_nat (length argv)));
    destruct (Z.ltb_spec (atoi (arg argv 1)) 0);
    destruct (Z.ltb_spec (atoi (arg argv 2)) 0);
    split_and!; intros; first [reflexivity | lia].
Qed.

Lemma argument_fallback_witness :
  arg_N ["poisson"; "-3"; "-4"]%string = 50 ∧ arg_M ["poisson"; "-3"; "-4"]%string = 1.
Proof.
  destruct (argument_fallback ["poisson"; "-3"; "-4"]%string)
    as (HN & _ & _ & HM & _ & _).
  split; [apply HN|apply HM]; vm_compute; first [lia | reflexivity].
Defined.

(** C7, as stated, fails: an argument that is not a number, and the argument
    [0], are not positive integers, yet they are taken as the dimension [0]:
    [N] is not set to [50] and [M] is not set to [1]. *)
Lemma invalid_argument_kept :
  positive_decimal "abc" = false
  ∧ arg_N ["poisson"; "abc"]%string = 0
  ∧ positive_decimal "0" = false
  ∧ arg_M ["poisson"; "4"; "0"]%string = 0
  ∧ arg_M ["poisson"; "4"; "abc"]%string = 0
  ∧ ¬ (∀ s, positive_decimal s = false → arg_N ["poisson"; s]%string = 50)
  ∧ ¬ (∀ s, positive_decimal s = false → arg_M ["poisson"; "4"; s]%string = 1).
Proof.
  split_and!; try reflexivity.
  - intros H. specialize (H "abc"%string eq_refl). vm_compute in H. discriminate.
  - intros H. specialize (H "abc"%string eq_refl). vm_compute in H. discriminate.
Qed.

Lemma main_returns argv e :
  ∃ st, jacobi_poisson_run (arg_N argv) (arg_M argv)
          (calloc ((arg_N argv + 2) * (arg_M argv + 2)))
          (init_b (arg_N argv) (arg_M argv)
             (calloc ((arg_N argv + 2) * (arg_M argv + 2)))) = Some st
    ∧ main argv e
      = if reaches_output argv e && fopen_output e then
          if fopen_matrix e then
            Some (Exit 0 (st_out st)
                    (Report (wtime_toc e - wtime_tic e)%float (arg_N argv) (arg_M argv)
                       (num_threads e))
                    (Some (matrix_rows (arg_N argv) (arg_M argv) (vx (st_mem st)))))
          else
            Some (Exit 1 (st_out st)
                    (Report (wtime_toc e - wtime_tic e)%float (arg_N argv) (arg_M argv)
                       (num_threads e))
                    None)
        else Some Undefined.
Proof.
  unfold main, jacobi_poisson_run.
  destruct (solve_total maxit (arg_N argv) (arg_M argv)
              (calloc ((arg_N argv + 2) * (arg_M argv + 2)))
              (init_b (arg_N argv) (arg_M argv)
                 (calloc ((arg_N argv + 2) * (arg_M argv + 2)))))
    as (n & -> & _).
  eexists. split; [reflexivity|].
  by destruct (reaches_output argv e), (fopen_output e).
Qed.




(** ** Stores compared entry by entry *)

Lemma foldl_wr_eq {P : Type} (o : P → Z) (g g' : P → float) (l l' : list P) a :
  (∀ p, p ∈ l → ∃ q, q ∈ l' ∧ Z.to_nat (o q) = Z.to_nat (o p)) →
  (∀ q, q ∈ l' → ∃ p, p ∈ l ∧ Z.to_nat (o p) = Z.to_nat (o q)) →
  (∀ p q, p ∈ l → q ∈ l' → Z.to_nat (o p) = Z.to_nat (o q) → g p = g' q) →
  foldl (λ a p, wr a (o p) (g p)) a l = foldl (λ a p, wr a (o p) (g' p)) a l'.
Proof.
  intros Hto Hfrom Hval. apply list_eq. intros n.
  destruct (decide (Exists (λ p, Z.to_nat (o p) = n) l)) as [Hex|Hnex].
  - apply Exists_exists in Hex as (p & Hp & <-).
    destruct (Hto p Hp) as (q & Hq & Hpq).
    destruct (decide (Z.to_nat (o p) < length a)%nat) as [Hlt|Hge].
    + rewrite (foldl_wr_hit o g l a p); [|done| |done].
      * rewrite <- Hpq. rewrite (foldl_wr_hit o g' l' a q); [|done| |lia].
        -- f_equal. apply Hval; [done..|]. lia.
        -- intros q' Hq' Heq. destruct (Hfrom q' Hq') as (p' & Hp' & Hpq').
           rewrite <- (Hval p' q' Hp' Hq' Hpq'). apply Hval; [done..|]. lia.
      * intros p' Hp' Heq. rewrite (Hval p' q Hp' Hq) by lia. symmetry. by apply Hval.
    + rewrite !lookup_ge_None_2; [done|rewrite length_foldl_wr; lia..].
  - rewrite !foldl_wr_other; [done| |].
    + intros q Hq Heq. destruct (Hfrom q Hq) as (p & Hp & Hpq).
      apply Hnex, Exists_exists. exists p. split; [done|]. lia.
    + intros p Hp Heq. apply Hnex, Exists_exists. by exists p.
Qed.

Lemma foldl_wr_same {P : Type} (o : P → Z) (g : P → float) (l : list P) a :
  (∀ p, p ∈ l → g p = rd a (o p)) →
  foldl (λ a p, wr a (o p) (g p)) a l = a.
Proof.
  intros Hval. apply list_eq. intros n.
  destruct (decide (Exists (λ p, Z.to_nat (o p) = n) l)) as [Hex|Hnex].
  - apply Exists_exists in Hex as (p & Hp & <-).
    destruct (decide (Z.to_nat (o p) < length a)%nat) as [Hlt|Hge].
    + rewrite (foldl_wr_hit o g l a p); [|done| |done].
      * rewrite Hval by done. unfold rd.
        by destruct (lookup_lt_is_Some_2 a _ Hlt) as [v ->].
      * intros p' Hp' Heq. rewrite !Hval by done. unfold rd. by rewrite Heq.
    + rewrite !lookup_ge_None_2; [done|lia|rewrite length_foldl_wr; lia].
  - apply foldl_wr_other. intros p Hp Heq. apply Hnex, Exists_exists. by exists p.
Qed.


Lemma fill_same N M g a :
  (∀ i j, 1 ≤ i ≤ N → 1 ≤ j ≤ M → g i j = rd a (i*(M+2)+j)) → fill N M g a = a.
Proof.
  intros Hg. rewrite fill_flat.
  apply (foldl_wr_same (λ p, p.1*(M+2)+p.2) (λ p, g p.1 p.2)).
  intros [i j] Hp. apply elem_of_interior in Hp as [Hi Hj]. by apply Hg.
Qed.

Lemma fill_twice N M g a : fill N M g (fill N M g a) = fill N M g a.
Proof.
  rewrite !fill_flat, <- foldl_app.
  apply (foldl_wr_eq (λ p, p.1*(M+2)+p.2) (λ p, g p.1 p.2) (λ p, g p.1 p.2)).
  - intros p Hp. exists p. split; [|done].
    apply elem_of_app in Hp as [Hp|Hp]; done.
  - intros p Hp. exists p. split; [|done]. apply elem_of_app. by left.
  - intros [i j] [i' j'] Hp Hq Heq. cbn [fst snd] in *.
    assert ((i, j) ∈ interior N M) as Hp' by (apply elem_of_app in Hp as [?|?]; done).
    apply elem_of_interior in Hp' as [Hi Hj]. apply elem_of_interior in Hq as [Hi' Hj'].
    by apply offset_inj in Heq as [-> ->]; [|lia..].
Qed.

(** ** The order of the points *)

Lemma for_points_sweep l M m :
  for_points l (sweep_body M) m
  = set_vt m (foldl (λ a p, wr a (p.1*(M+2)+p.2) (stencil (M+2) (vx m) (vb m) p.1 p.2))
                (vt m) l).
Proof.
  unfold for_points. revert m.
  induction l as [|p l IH]; intros [x b t]; cbn; [done|].
  rewrite IH. reflexivity.
Qed.

Lemma for_points_copy l M m :
  for_points l (copy_body M) m
  = set_vx m (foldl (λ a p, wr a (p.1*(M+2)+p.2) (rd (vt m) (p.1*(M+2)+p.2))) (vx m) l).
Proof.
  unfold for_points. revert m.
  induction l as [|p l IH]; intros [x b t]; cbn; [done|].
  rewrite IH. reflexivity.
Qed.

(** X1. The sweep and the copy do not depend on the order in which the
    interior points are taken: run over any permutation of them, one point
    after the other, their bodies leave the same buffers as the loop nests in
    source order. (No two points store at the same offset, and no point reads
    what another stores.) *)
Theorem loop_order_irrelevant (N M : Z) (l : list (Z * Z)) (m : mem) :
  l ≡ₚ interior N M →
  for_points l (sweep_body M) m = jacobi_step N M m
  ∧ for_points l (copy_body M) m = copy_back N M m.
Proof.
  intros Hperm.
  assert (∀ g : Z * Z → float,
    foldl (λ a p, wr a (p.1*(M+2)+p.2) (g p)) (vt m) l
    = foldl (λ a p, wr a (p.1*(M+2)+p.2) (g p)) (vt m) (interior N M)
    ∧ foldl (λ a p, wr a (p.1*(M+2)+p.2) (g p)) (vx m) l
      = foldl (λ a p, wr a (p.1*(M+2)+p.2) (g p)) (vx m) (interior N M)) as Hfold.
  { intros g.
    split; apply (foldl_wr_eq (λ p, p.1*(M+2)+p.2) g g);
      try (intros p Hp; exists p; split; [|done]);
      try (by rewrite <- Hperm); try (by rewrite Hperm);
      intros [i j] [i' j'] Hp Hq Heq; cbn [fst snd] in *;
      rewrite Hperm in Hp;
      apply elem_of_interior in Hp as [Hi Hj]; apply elem_of_interior in Hq as [Hi' Hj'];
      by apply offset_inj in Heq as [-> ->]; [|lia..]. }
  split.
  - rewrite for_points_sweep, jacobi_step_fill, fill_flat.
    f_equal. apply (Hfold (λ p, stencil (M+2) (vx m) (vb m) p.1 p.2)).
  - rewrite for_points_copy, copy_back_fill, fill_flat.
    f_equal. apply (Hfold (λ p, rd (vt m) (p.1*(M+2)+p.2))).
Qed.

Lemma loop_order_irrelevant_witness :
  for_points [(1, 2); (1, 1); (2, 1); (2, 2)] (sweep_body 2)
    (Mem (wr (calloc 16) 5 1%float) (wr (calloc 16) 10 3%float) (calloc 16))
  = jacobi_step 2 2 (Mem (wr (calloc 16) 5 1%float) (wr (calloc 16) 10 3%float) (calloc 16)).
Proof.
  apply (loop_order_irrelevant 2 2 [(1, 2); (1, 1); (2, 1); (2, 2)]).
  vm_compute. apply Permutation_swap.
Defined.

(** X2. Sweeping twice is sweeping once, and copying twice is copying once:
    the sweep reads only [x] and [b] and the copy reads only [t], neither of
    which it changes. *)
Theorem sweep_and_copy_idempotent (N M : Z) (m : mem) :
  jacobi_step N M (jacobi_step N M m) = jacobi_step N M m
  ∧ copy_back N M (copy_back N M m) = copy_back N M m.
Proof.
  split.
  - rewrite (jacobi_step_fill N M (jacobi_step N M m)).
    rewrite (jacobi_step_fill N M m). destruct m as [x b t].
    cbn [vx vb vt set_vt]. by rewrite fill_twice.
  - rewrite (copy_back_fill N M (copy_back N M m)).
    rewrite (copy_back_fill N M m). destruct m as [x b t].
    cbn [vx vb vt set_vx]. by rewrite fill_twice.
Qed.

(** ** Accesses within bounds *)

Lemma rd_chk_in a o :
  0 ≤ o < Z.of_nat (length a) → o ≤ INT_MAX → rd_chk a o = Some (rd a o).
Proof.
  intros Ho Hint. unfold rd_chk, rd.
  destruct (Z.leb_spec 0 o); [|lia]. destruct (Z.leb_spec o INT_MAX); [|lia].
  cbn [andb].
  destruct (lookup_lt_is_Some_2 a (Z.to_nat o)) as [v ->]; [lia|done].
Qed.

Lemma wr_chk_in a o v :
  0 ≤ o < Z.of_nat (length a) → o ≤ INT_MAX → wr_chk a o v = Some (wr a o v).
Proof.
  intros Ho Hint. unfold wr_chk.
  destruct (Z.leb_spec 0 o); [|lia]. destruct (Z.leb_spec o INT_MAX); [|lia].
  cbn [andb].
  destruct (Z.ltb_spec o (Z.of_nat (length a))); [done|lia].
Qed.

Ltac offsets_in_range :=
  match goal with
  | Hi : 1 ≤ ?i ≤ ?N, Hj : 1 ≤ ?j ≤ ?M |- _ =>
      pose proof (interior_offsets_in_range N M i j Hi Hj); nia
  end.

Lemma jacobi_step_chk_ok N M m :
  (N+2)*(M+2) ≤ INT_MAX →
  (N+2)*(M+2) ≤ Z.of_nat (length (vx m)) →
  (N+2)*(M+2) ≤ Z.of_nat (length (vb m)) →
  (N+2)*(M+2) ≤ Z.of_nat (length (vt m)) →
  jacobi_step_chk N M m = Some (jacobi_step N M m).
Proof.
  unfold jacobi_step_chk, jacobi_step. rewrite !for_interior_flat.
  pose proof (λ p, proj1 (elem_of_interior N M p.1 p.2)) as Hl.
  revert Hl. generalize (interior N M) as l. intros l. revert m.
  induction l as [|[i j] l IH]; intros m Hl Hint Hx Hb Ht; [done|].
  destruct (Hl (i, j)) as [Hi Hj]; [by left|]. cbn [fst snd] in Hi, Hj.
  cbn [foldl fst snd mbind option_bind].
  unfold stencil_chk.
  rewrite !rd_chk_in by offsets_in_range. cbn [mbind option_bind].
  rewrite wr_chk_in by offsets_in_range. cbn [mbind option_bind].
  apply IH; cbn [vx vb vt set_vt]; [|done|done|done|by rewrite length_wr].
  intros p Hp. apply Hl. by right.
Qed.

Lemma sum_sq_chk_ok N M x t :
  (N+2)*(M+2) ≤ INT_MAX →
  (N+2)*(M+2) ≤ Z.of_nat (length x) →
  (N+2)*(M+2) ≤ Z.of_nat (length t) →
  sum_sq_chk N M x t = Some (sum_sq N M x t).
Proof.
  intros Hint Hx Ht. unfold sum_sq_chk, sum_sq. rewrite !for_interior_flat.
  pose proof (λ p, proj1 (elem_of_interior N M p.1 p.2)) as Hl.
  revert Hl. generalize (interior N M) as l. intros l.
  generalize 0%float as s.
  induction l as [|[i j] l IH]; intros s Hl; [done|].
  destruct (Hl (i, j)) as [Hi Hj]; [by left|]. cbn [fst snd] in Hi, Hj.
  cbn [foldl fst snd mbind option_bind].
  rewrite !rd_chk_in by offsets_in_range. cbn [mbind option_bind].
  apply IH. intros p Hp. apply Hl. by right.
Qed.

Lemma copy_back_chk_ok N M m :
  (N+2)*(M+2) ≤ INT_MAX →
  (N+2)*(M+2) ≤ Z.of_nat (length (vx m)) →
  (N+2)*(M+2) ≤ Z.of_nat (length (vt m)) →
  copy_back_chk N M m = Some (copy_back N M m).
Proof.
  unfold copy_back_chk, copy_back. rewrite !for_interior_flat.
  pose proof (λ p, proj1 (elem_of_interior N M p.1 p.2)) as Hl.
  revert Hl. generalize (interior N M) as l. intros l. revert m.
  induction l as [|[i j] l IH]; intros m Hl Hint Hx Ht; [done|].
  destruct (Hl (i, j)) as [Hi Hj]; [by left|]. cbn [fst snd] in Hi, Hj.
  cbn [foldl fst snd mbind option_bind].
  rewrite rd_chk_in by offsets_in_range. cbn [mbind option_bind].
  rewrite wr_chk_in by offsets_in_range. cbn [mbind option_bind].
  apply IH; cbn [vx vb vt set_vx]; [|done|by rewrite length_wr|done].
  intros p Hp. apply Hl. by right.
Qed.

Lemma cycle_chk_ok N M st :
  (N+2)*(M+2) ≤ INT_MAX →
  (N+2)*(M+2) ≤ Z.of_nat (length (vx (st_mem st))) →
  (N+2)*(M+2) ≤ Z.of_nat (length (vb (st_mem st))) →
  (N+2)*(M+2) ≤ Z.of_nat (length (vt (st_mem st))) →
  cycle_chk N M st = Some (cycle N M st).
Proof.
  intros Hint Hx Hb Ht. unfold cycle_chk.
  destruct (jacobi_step_effect N M (st_mem st)) as (Hx' & Hb' & Ht' & _).
  rewrite jacobi_step_chk_ok by done. cbn [mbind option_bind].
  rewrite sum_sq_chk_ok by (rewrite ?Hx', ?Ht'; done). cbn [mbind option_bind].
  rewrite copy_back_chk_ok by (rewrite ?Hx', ?Ht'; done). reflexivity.
Qed.

Lemma iter_cycle_chk N M st k :
  (N+2)*(M+2) ≤ INT_MAX →
  (N+2)*(M+2) ≤ Z.of_nat (length (vx (st_mem st))) →
  (N+2)*(M+2) ≤ Z.of_nat (length (vb (st_mem st))) →
  (N+2)*(M+2) ≤ Z.of_nat (length (vt (st_mem st))) →
  cycle_chk N M (Nat.iter k (cycle N M) st) = Some (Nat.iter (S k) (cycle N M) st).
Proof.
  intros Hint Hx Hb Ht. rewrite Nat.iter_succ.
  destruct (iter_cycle_lengths N M k st) as [Hlx Hlt].
  apply cycle_chk_ok.
  - done.
  - by rewrite Hlx.
  - by rewrite iter_cycle_vb.
  - by rewrite Hlt.
Qed.

(** X3. When the size [(N+2)*(M+2)] fits an [int] and the three buffers
    [x], [b] and [t] hold at least that many entries on entry to the loop
    (so [t] has been allocated), no cycle of [jacobi_poisson] reads or
    stores outside a buffer: after any number of cycles, the next cycle
    with every access checked succeeds and is the cycle of the solver. *)
Theorem solver_within_bounds (N M : Z) (st : state) (k : nat) :
  (N+2)*(M+2) ≤ INT_MAX →
  (N+2)*(M+2) ≤ Z.of_nat (length (vx (st_mem st))) →
  (N+2)*(M+2) ≤ Z.of_nat (length (vb (st_mem st))) →
  (N+2)*(M+2) ≤ Z.of_nat (length (vt (st_mem st))) →
  cycle_chk N M (Nat.iter k (cycle N M) st) = Some (Nat.iter (S k) (cycle N M) st).
Proof. apply iter_cycle_chk. Qed.

Lemma solver_within_bounds_witness :
  cycle_chk 1 1 (Nat.iter 1 (cycle 1 1) (init_state 1 1 (calloc 9) (wr (calloc 9) 4 2%float)))
  = Some (Nat.iter 2 (cycle 1 1) (init_state 1 1 (calloc 9) (wr (calloc 9) 4 2%float))).
Proof.
  apply (solver_within_bounds 1 1 (init_state 1 1 (calloc 9) (wr (calloc 9) 4 2%float)) 1);
    vm_compute; discriminate.
Defined.

(** A [t] that was not allocated, or is one entry short of the last interior
    point, makes the checked sweep fail. *)
Example sweep_out_of_bounds :
  jacobi_step_chk 1 1 (Mem (calloc 9) (calloc 9) []) = None
  ∧ jacobi_step_chk 1 1 (Mem (calloc 9) (calloc 9) (calloc 4)) = None.
Proof. split; vm_compute; reflexivity. Qed.

(** ** What the driver hands to the solver, and what it writes *)

Lemma arg_nonneg argv : 0 ≤ arg_N argv ∧ 0 ≤ arg_M argv.
Proof.
  unfold arg_N, arg_M.
  destruct (1 <? Z.of_nat (length argv)), (2 <? Z.of_nat (length argv));
    destruct (Z.ltb_spec (atoi (arg argv 1)) 0);
    destruct (Z.ltb_spec (atoi (arg argv 2)) 0); lia.
Qed.

(** X5. The right-hand side the driver builds holds [h*h*f], the double
    [0x1.3a92a30553262p-13] (about [1.5e-4]), at every interior point and
    [+0.0] at every point of the halo. *)
Theorem driver_rhs (argv : list string) (i j : Z) :
  let N := arg_N argv in
  let M := arg_M argv in
  let b := init_b N M (calloc ((N+2)*(M+2))) in
  (1 ≤ i ≤ N → 1 ≤ j ≤ M → rd b (i*(M+2)+j) = 0x1.3a92a30553262p-13%float)
  ∧ (on_boundary N M i j → rd b (i*(M+2)+j) = 0%float).
Proof.
  intros N M b. destruct (arg_nonneg argv) as [HN HM]. fold N M in HN, HM.
  destruct (init_b_entries N M i j HN HM) as [Hin Hout]. split; [|exact Hout].
  intros Hi Hj. unfold b. rewrite Hin by done. reflexivity.
Qed.

Lemma driver_rhs_witness :
  rd (init_b (arg_N ["poisson"; "2"; "3"]%string) (arg_M ["poisson"; "2"; "3"]%string)
        (calloc ((arg_N ["poisson"; "2"; "3"]%string + 2)
                 * (arg_M ["poisson"; "2"; "3"]%string + 2))))
     (2 * (arg_M ["poisson"; "2"; "3"]%string + 2) + 3)
  = 0x1.3a92a30553262p-13%float.
Proof.
  apply (proj1 (driver_rhs ["poisson"; "2"; "3"]%string 2 3)); vm_compute; split; discriminate.
Defined.

Lemma matrix_rows_shape N M x :
  length (matrix_rows N M x) = Z.to_nat N
  ∧ (∀ r, r ∈ matrix_rows N M x → length r = Z.to_nat M)
  ∧ (∀ i j, 1 ≤ i ≤ N → 1 ≤ j ≤ M →
       matrix_rows N M x !! Z.to_nat (i-1) ≫= (λ r, r !! Z.to_nat (j-1))
       = Some (rd x (i*(M+2)+j))).
Proof.
  unfold matrix_rows. split_and!.
  - by rewrite length_fmap, length_seqZ.
  - intros r Hr. apply list_elem_of_fmap in Hr as (i & -> & _).
    by rewrite length_fmap, length_seqZ.
  - intros i j Hi Hj. rewrite list_lookup_fmap, lookup_seqZ_lt by lia.
    cbn [fmap option_fmap option_map mbind option_bind].
    rewrite list_lookup_fmap, lookup_seqZ_lt by lia.
    cbn [fmap option_fmap option_map].
    replace (1 + Z.of_nat (Z.to_nat (i-1))) with i by lia.
    by replace (1 + Z.of_nat (Z.to_nat (j-1))) with j by lia.
Qed.

(** X6. When the run is defined up to the files (the arguments and the
    [int] size of the buffers fit, no null buffer is accessed) and both files
    can be opened, the driver exits with [0] and the matrix it has written
    has one row per interior row of the grid, [N] rows of [M] values each,
    the value in row [i], column [j] being [x[i,j]] as the solver left it; no
    value of the halo is written. *)
Theorem driver_matrix (argv : list string) (e : env) :
  reaches_output argv e = true →
  fopen_output e = true → fopen_matrix e = true →
  let N := arg_N argv in
  let M := arg_M argv in
  ∃ st rep rows,
    jacobi_poisson_run N M (calloc ((N+2)*(M+2))) (init_b N M (calloc ((N+2)*(M+2))))
    = Some st
    ∧ main argv e = Some (Exit 0 (st_out st) rep (Some rows))
    ∧ Z.of_nat (length rows) = N
    ∧ (∀ r, r ∈ rows → Z.of_nat (length r) = M)
    ∧ (∀ i j, 1 ≤ i ≤ N → 1 ≤ j ≤ M →
         rows !! Z.to_nat (i-1) ≫= (λ r, r !! Z.to_nat (j-1))
         = Some (rd (vx (st_mem st)) (i*(M+2)+j))).
Proof.
  intros Hdef Hout Hmat N M. subst N M.
  destruct (main_returns argv e) as (st & Hrun & Hmain).
  rewrite Hdef, Hout, Hmat in Hmain. cbn [andb] in Hmain.
  destruct (arg_nonneg argv) as [HN HM].
  destruct (matrix_rows_shape (arg_N argv) (arg_M argv) (vx (st_mem st)))
    as (Hlen & Hrow & Hval).
  eexists st, _, _. split_and!; [exact Hrun|exact Hmain|..].
  - rewrite Hlen. lia.
  - intros r Hr. rewrite (Hrow r Hr). lia.
  - exact Hval.
Qed.

Lemma driver_matrix_witness :
  ∃ st rep rows,
    main ["poisson"; "1"; "2"]%string (Env true true true true true 0 1 4)
    = Some (Exit 0 (st_out st) rep (Some rows))
    ∧ Z.of_nat (length rows) = arg_N ["poisson"; "1"; "2"]%string.
Proof.
  destruct (driver_matrix ["poisson"; "1"; "2"]%string (Env true true true true true 0 1 4)
              eq_refl eq_refl eq_refl)
    as (st & rep & rows & _ & Hmain & Hlen & _).
  by exists st, rep, rows.
Defined.

(** ** What a solve leaves of its input *)

(** X7. [jacobi_poisson] stores into [x] at offsets of interior points only:
    [x] keeps its length, every other entry of it keeps the value it had on
    entry, so that boundary values stored in the halo, zero or not, are the
    same after the solve; and [b] is unchanged. *)
Theorem solve_keeps_boundary_data (N M : Z) (x b : buffer) :
  ∃ st',
    jacobi_poisson_run N M x b = Some st'
    ∧ length (vx (st_mem st')) = length x
    ∧ vb (st_mem st') = b
    ∧ (∀ n, ¬ interior_offset N M n → vx (st_mem st') !! n = x !! n)
    ∧ (∀ i j, on_boundary N M i j →
         rd (vx (st_mem st')) (i*(M+2)+j) = rd x (i*(M+2)+j)).
Proof.
  destruct (solve_total maxit N M x b) as (n & Hrun & _).
  eexists. split; [exact Hrun|].
  destruct (iter_cycle_lengths N M n (init_state N M x b)) as [Hlx _].
  split_and!; [done|by rewrite iter_cycle_vb| |].
  - intros k Hk. by destruct (iter_cycle_frame N M (init_state N M x b) n k Hk) as [-> _].
  - intros i j Hb. unfold rd.
    destruct (iter_cycle_frame N M (init_state N M x b) n (Z.to_nat (i*(M+2)+j)))
      as [-> _]; [by apply boundary_not_interior|done].
Qed.

Lemma solve_keeps_boundary_data_witness :
  ∃ st',
    jacobi_poisson_run 1 1 (wr (calloc 9) 1 3%float) (calloc 9) = Some st'
    ∧ rd (vx (st_mem st')) (0*(1+2)+1) = rd (wr (calloc 9) 1 3%float) (0*(1+2)+1).
Proof.
  destruct (solve_keeps_boundary_data 1 1 (wr (calloc 9) 1 3%float) (calloc 9))
    as (st' & Hrun & _ & _ & _ & Hhalo).
  exists st'. split; [exact Hrun|]. apply Hhalo. unfold on_boundary. lia.
Defined.

(** ** The records printed *)

Lemma iter_cycle_out N M k st :
  st_out (Nat.iter k (cycle N M) st)
  = st_out st
    ++ ((λ i, (st_k st + Z.of_nat i, sqrt (st_s (Nat.iter (S i) (cycle N M) st))))
          <$> seq 0 k).
Proof.
  induction k as [|k IH]; [cbn; by rewrite app_nil_r|].
  rewrite seq_S, fmap_app, app_assoc, <- IH. cbn [fmap list_fmap].
  rewrite Nat.iter_succ, cycle_out, iter_cycle_k. by rewrite <- Nat.iter_succ.
Qed.

(** X8. The records [jacobi_poisson] prints are numbered [0, 1, 2, ...] in
    the order of the cycles, record [i] carrying the residual of cycle [i],
    and every record but the last carries a residual that is not below
    [tol]: a residual below [tol] can only be the last one printed. *)
Theorem printed_records (N M : Z) (x b : buffer) :
  ∃ n st',
    jacobi_poisson_run N M x b = Some st'
    ∧ length (st_out st') = n
    ∧ ∀ i k r,
        st_out st' !! i = Some (k, r) →
        k = Z.of_nat i
        ∧ r = sqrt (st_s (Nat.iter (S i) (cycle N M) (init_state N M x b)))
        ∧ ((r <? tol)%float = true → S i = n).
Proof.
  destruct (solve_total maxit N M x b) as (n & Hrun & _ & Hbefore & _).
  exists n. eexists. split; [exact Hrun|].
  rewrite iter_cycle_out. cbn [init_state st_out st_k app].
  split; [by rewrite length_fmap, length_seq|].
  intros i k r Hi. rewrite list_lookup_fmap in Hi.
  destruct (seq 0 n !! i) as [i'|] eqn:Hseq; [|done].
  apply lookup_seq in Hseq as [-> Hlt]. change (0 + i)%nat with i in Hi.
  cbn [fmap option_fmap option_map] in Hi.
  injection Hi as <- <-. split_and!; [lia|done|].
  intros Hr. destruct (decide (S i = n)) as [|Hne]; [done|].
  assert (S i < n)%nat as Hlt' by lia.
  specialize (Hbefore (S i) Hlt'). apply guard_true in Hbefore as [Hconv _].
  rewrite Nat.iter_succ, cycle_conv, <- Nat.iter_succ in Hconv.
  exfalso. assert (true = false) as Habs by exact (eq_trans (eq_sym Hr) Hconv).
  discriminate.
Qed.

Lemma printed_records_witness :
  ∃ n st',
    jacobi_poisson_run 1 1 (wr (calloc 9) 4 1%float) (calloc 9) = Some st'
    ∧ length (st_out st') = n
    ∧ (∀ k r, st_out st' !! 1%nat = Some (k, r) → k = 1).
Proof.
  destruct (printed_records 1 1 (wr (calloc 9) 4 1%float) (calloc 9))
    as (n & st' & Hrun & Hlen & Hrec).
  exists n, st'. split_and!; [done..|].
  intros k r Hkr. by destruct (Hrec 1%nat k r Hkr) as (-> & _).
Defined.

(** ** Not-a-number and finite values *)

Lemma nan_add_l (y : float) : (nan + y)%float = nan.
Proof. apply Prim2SF_inj. rewrite add_spec. reflexivity. Qed.

Lemma nan_add_r (x : float) : (x + nan)%float = nan.
Proof.
  apply Prim2SF_inj. rewrite add_spec. change (Prim2SF nan) with S754_nan.
  by destruct (Prim2SF x) as [[|]|[|]| |].
Qed.

Lemma nan_sub_r (x : float) : (x - nan)%float = nan.
Proof.
  apply Prim2SF_inj. rewrite sub_spec. change (Prim2SF nan) with S754_nan.
  by destruct (Prim2SF x) as [[|]|[|]| |].
Qed.

Lemma nan_div_l (y : float) : (nan / y)%float = nan.
Proof. apply Prim2SF_inj. rewrite div_spec. reflexivity. Qed.

Lemma sub_diag_finite (x : float) : is_finite x = true → (x - x)%float = 0%float.
Proof.
  intros Hfin. apply Prim2SF_inj. rewrite sub_spec.
  unfold is_finite, is_nan, is_infinity in Hfin.
  rewrite !FloatAxioms.eqb_spec, abs_spec in Hfin.
  destruct (Prim2SF x) as [[|]|[|]| |s m e]; try discriminate; try reflexivity.
  cbn [SF64sub SFsub]. by rewrite Z.sub_diag.
Qed.

Lemma foldl_add_nan {P : Type} (g : P → float) (l : list P) (s : float) :
  s = nan ∨ (∃ p, p ∈ l ∧ g p = nan) → foldl (λ s p, (s + g p)%float) s l = nan.
Proof.
  revert s. induction l as [|q l IH]; intros s [Hs|(p & Hp & Hg)]; cbn [foldl].
  - done.
  - by apply elem_of_nil in Hp.
  - apply IH. left. subst s. apply nan_add_l.
  - apply IH. apply elem_of_cons in Hp as [->|Hp].
    + left. rewrite Hg. apply nan_add_r.
    + right. by exists p.
Qed.

Lemma foldl_add_zero {P : Type} (g : P → float) (l : list P) :
  (∀ p, p ∈ l → g p = 0%float) → foldl (λ s p, (s + g p)%float) 0%float l = 0%float.
Proof.
  induction l as [|q l IH]; intros Hg; cbn [foldl]; [done|].
  rewrite (Hg q) by (by left). change (0 + 0)%float with 0%float.
  apply IH. intros p Hp. apply Hg. by right.
Qed.

(** ** A right-hand side that is not a number *)

Lemma cycle_nan N M st i j :
  (N+2)*(M+2) ≤ Z.of_nat (length (vx (st_mem st))) →
  (N+2)*(M+2) ≤ Z.of_nat (length (vt (st_mem st))) →
  1 ≤ i ≤ N → 1 ≤ j ≤ M →
  rd (vb (st_mem st)) (i*(M+2)+j) = nan →
  st_conv (cycle N M st) = false
  ∧ rd (vx (st_mem (cycle N M st))) (i*(M+2)+j) = nan.
Proof.
  intros Hx Ht Hi Hj Hb.
  assert (rd (vt (jacobi_step N M (st_mem st))) (i*(M+2)+j) = nan) as Hnan.
  { rewrite jacobi_step_fill. cbn [vt set_vt]. rewrite rd_fill_interior by done.
    unfold stencil. by rewrite Hb, !nan_add_l, nan_div_l. }
  split.
  - rewrite cycle_conv. cbn [cycle st_s]. unfold sum_sq. rewrite for_interior_flat.
    rewrite (foldl_add_nan
               (λ p, ((rd (vx (jacobi_step N M (st_mem st))) (p.1*(M+2)+p.2)
                       - rd (vt (jacobi_step N M (st_mem st))) (p.1*(M+2)+p.2))
                      * (rd (vx (jacobi_step N M (st_mem st))) (p.1*(M+2)+p.2)
                         - rd (vt (jacobi_step N M (st_mem st))) (p.1*(M+2)+p.2)))%float));
      [reflexivity|].
    right. exists (i, j). split; [by apply elem_of_interior|].
    cbn [fst snd]. by rewrite Hnan, nan_sub_r.
  - rewrite cycle_copies by done. cbn [cycle st_mem].
    by destruct (copy_back_frame N M (jacobi_step N M (st_mem st))) as (_ & -> & _).
Qed.

(** X9. When the right-hand side holds a NaN at an interior point, the
    convergence test fails in every cycle: [jacobi_poisson] runs its
    [maxit = 70000] cycles, ends Exhausted, and returns a field that holds a
    NaN at that point. *)
Theorem nan_rhs_never_converges (N M : Z) (x b : buffer) (i j : Z) :
  (N+2)*(M+2) ≤ Z.of_nat (length x) →
  1 ≤ i ≤ N → 1 ≤ j ≤ M →
  rd b (i*(M+2)+j) = nan →
  ∃ st',
    jacobi_poisson_run N M x b = Some st'
    ∧ st_k st' = maxit
    ∧ Z.of_nat (length (st_out st')) = 70000
    ∧ control_of maxit st' = Exhausted
    ∧ rd (vx (st_mem st')) (i*(M+2)+j) = nan.
Proof.
  intros Hx Hi Hj Hb.
  destruct (solve_total maxit N M x b) as (n & Hrun & Hex & _ & Hn).
  eexists. split; [exact Hrun|].
  destruct n as [|n]; [cbn in Hex; discriminate|].
  destruct (iter_cycle_lengths N M n (init_state N M x b)) as [Hlx Hlt].
  destruct (cycle_nan N M (Nat.iter n (cycle N M) (init_state N M x b)) i j)
    as [Hconv Hval]; [| |done|done| |].
  - by rewrite Hlx.
  - rewrite Hlt. cbn [init_state st_mem vt]. unfold calloc.
    rewrite length_replicate. lia.
  - by rewrite iter_cycle_vb.
  - rewrite <- Nat.iter_succ in Hconv, Hval.
    apply guard_false in Hex as [Hc|Hc]; [congruence|].
    rewrite iter_cycle_k in Hc. cbn [init_state st_k] in Hc.
    assert (Z.of_nat (S n) = maxit) as Hk by (unfold maxit in *; lia).
    unfold control_of. rewrite Hconv, iter_cycle_out_length, iter_cycle_k.
    cbn [init_state st_k st_out length]. rewrite Hk.
    split_and!; [lia|unfold maxit in Hk; lia|done|done].
Qed.

Lemma nan_rhs_never_converges_witness :
  ∃ st',
    jacobi_poisson_run 1 1 (calloc 9) (wr (calloc 9) 4 nan) = Some st'
    ∧ st_k st' = maxit.
Proof.
  destruct (nan_rhs_never_converges 1 1 (calloc 9) (wr (calloc 9) 4 nan) 1 1)
    as (st' & Hrun & Hk & _); [vm_compute; discriminate|lia|lia|reflexivity|].
  exists st'. split; [exact Hrun|exact Hk].
Defined.

(** ** A field the sweep leaves as it is *)

(** X10. When every interior value of [x] is finite and is exactly the value
    the stencil computes for it, [jacobi_poisson] makes one cycle, finds the
    residual [0], ends Converged and returns [x] unchanged. *)
Theorem fixed_point_one_cycle (N M : Z) (x b : buffer) :
  (∀ i j, 1 ≤ i ≤ N → 1 ≤ j ≤ M →
     is_finite (rd x (i*(M+2)+j)) = true
     ∧ ((rd b (i*(M+2)+j) + rd x ((i+1)*(M+2)+j) + rd x ((i-1)*(M+2)+j)
         + rd x (i*(M+2)+(j+1)) + rd x (i*(M+2)+(j-1))) / 4)%float
       = rd x (i*(M+2)+j)) →
  ∃ st',
    jacobi_poisson_run N M x b = Some st'
    ∧ st_k st' = 1
    ∧ control_of maxit st' = Converged
    ∧ st_out st' = [(0, 0%float)]
    ∧ vx (st_mem st') = x.
Proof.
  intros Hfix.
  set (st0 := init_state N M x b).
  assert (∀ i j, 1 ≤ i ≤ N → 1 ≤ j ≤ M →
    rd (vt (jacobi_step N M (st_mem st0))) (i*(M+2)+j) = rd x (i*(M+2)+j)) as Ht.
  { intros i j Hi Hj. rewrite jacobi_step_fill. cbn [st0 init_state st_mem vx vb vt set_vt].
    rewrite rd_fill_interior; [by apply Hfix| |done..].
    unfold calloc. rewrite length_replicate. lia. }
  assert (st_s (cycle N M st0) = 0%float) as Hs.
  { cbn [cycle st_s]. unfold sum_sq. rewrite for_interior_flat.
    destruct (jacobi_step_effect N M (st_mem st0)) as (-> & _).
    apply (foldl_add_zero
             (λ p, ((rd (vx (st_mem st0)) (p.1*(M+2)+p.2)
                     - rd (vt (jacobi_step N M (st_mem st0))) (p.1*(M+2)+p.2))
                    * (rd (vx (st_mem st0)) (p.1*(M+2)+p.2)
                       - rd (vt (jacobi_step N M (st_mem st0))) (p.1*(M+2)+p.2)))%float)).
    intros [i j] Hp. apply elem_of_interior in Hp as [Hi Hj]. cbn [fst snd].
    rewrite Ht by done. cbn [st0 init_state st_mem vx].
    rewrite sub_diag_finite by (by apply Hfix). reflexivity. }
  assert (vx (st_mem (cycle N M st0)) = x) as Hvx.
  { cbn [cycle st_mem]. rewrite copy_back_fill. cbn [vx set_vx].
    destruct (jacobi_step_effect N M (st_mem st0)) as (-> & _).
    cbn [st0 init_state st_mem vx]. apply fill_same. intros i j Hi Hj. by apply Ht. }
  assert (st_conv (cycle N M st0) = true) as Hconv.
  { rewrite cycle_conv, Hs. reflexivity. }
  exists (cycle N M st0). split_and!.
  - unfold jacobi_poisson_run, solve. fold st0.
    replace (Z.to_nat maxit) with (S (Z.to_nat (maxit - 1))) by (unfold maxit; lia).
    cbn [while_loop]. change (guard maxit st0) with true. cbv iota.
    rewrite while_loop_unfold. unfold guard. by rewrite Hconv.
  - reflexivity.
  - unfold control_of. by rewrite Hconv.
  - rewrite cycle_out, Hs. reflexivity.
  - exact Hvx.
Qed.

Lemma fixed_point_one_cycle_witness :
  ∃ st',
    jacobi_poisson_run 1 1 (wr (calloc 9) 4 0.5%float) (wr (calloc 9) 4 2%float) = Some st'
    ∧ vx (st_mem st') = wr (calloc 9) 4 0.5%float.
Proof.
  destruct (fixed_point_one_cycle 1 1 (wr (calloc 9) 4 0.5%float) (wr (calloc 9) 4 2%float))
    as (st' & Hrun & _ & _ & _ & Hx).
  - intros i j Hi Hj. assert (i = 1) as -> by lia. assert (j = 1) as -> by lia.
    vm_compute. split; reflexivity.
  - by exists st'.
Defined.

(** ** The halo of the right-hand side *)




